(** * remarkGloss: the interlinear-gloss plugin

    A shallow embedding of [remarkGloss] (the gloss plugin of the site's
    markdown pipeline) and of its helpers [extractLines], [processTextNode],
    [processTextLine], [parseLinePrefix], [parseGlossNode], [buildColumns]
    and the node constructors, followed by the properties of the line
    extractor, the prefix classifier, the assembler and the column builder. *)

From Stdlib Require Import String Ascii List NArith Arith Bool Lia.
Import ListNotations.
Local Open Scope string_scope.
Local Open Scope list_scope.
Local Open Scope nat_scope.
Set Warnings "-register-all".

(** ** JavaScript strings

    A text value is a JavaScript string: a sequence of UTF-16 code units.
    Node types, directive names and class names are ASCII identifiers and
    are kept as [string]. *)

Module Js.

Definition Char := N.
Definition JsString := list Char.

(** An ASCII literal as a JavaScript string. *)
Definition str (s : string) : JsString :=
  map N_of_ascii (list_ascii_of_string s).

(** The class [\s] of a regular expression without the [u] flag: the
    WhiteSpace and LineTerminator code points. *)
Definition isSpace (c : Char) : bool :=
  ((9 <=? c) && (c <=? 13)         (* \t \n \v \f \r *)
   || (c =? 32)                    (* space *)
   || (c =? 160)                   (* no-break space *)
   || (c =? 5760)                  (* U+1680 *)
   || ((8192 <=? c) && (c <=? 8202)) (* U+2000 .. U+200A *)
   || (c =? 8232) || (c =? 8233)   (* U+2028, U+2029 *)
   || (c =? 8239)                  (* U+202F *)
   || (c =? 8287)                  (* U+205F *)
   || (c =? 12288)                 (* U+3000 *)
   || (c =? 65279))%N.             (* U+FEFF *)

Definition newline : Char := 10%N.
Definition space : Char := 32%N.
Definition bar : Char := 124%N.      (* | *)
Definition slash : Char := 47%N.     (* / *)
Definition equals : Char := 61%N.    (* = *)

(** [text.split("\n")]: the pieces between the newlines; never empty. *)
Fixpoint splitNewline (cur : JsString) (s : JsString) : list JsString :=
  match s with
  | [] => [rev cur]
  | c :: s' =>
      if (c =? newline)%N then rev cur :: splitNewline [] s'
      else splitNewline (c :: cur) s'
  end.

Definition split_nl (text : JsString) : list JsString := splitNewline [] text.

(** [text.split(/(\s+)/)]: the pieces between the maximal runs of
    whitespace, with each run (the capture group) spliced in between:
    [piece; run; piece; run; ...; piece].  The first and the last piece
    are empty when the text starts or ends with whitespace. *)
Inductive SplitMode := InPiece | InRun.

Fixpoint splitSpaces (m : SplitMode) (cur : JsString) (s : JsString)
  : list JsString :=
  match s with
  | [] => match m with
          | InPiece => [rev cur]
          | InRun => [rev cur; []]
          end
  | c :: s' =>
      match m, isSpace c with
      | InPiece, false => splitSpaces InPiece (c :: cur) s'
      | InPiece, true => rev cur :: splitSpaces InRun [c] s'
      | InRun, true => splitSpaces InRun (c :: cur) s'
      | InRun, false => rev cur :: splitSpaces InPiece [c] s'
      end
  end.

Definition split_ws (text : JsString) : list JsString :=
  splitSpaces InPiece [] text.

(** [/^\s+$/.test(token)] *)
Definition allSpace (token : JsString) : bool :=
  match token with
  | [] => false
  | _ => forallb isSpace token
  end.

(** [text.match(/^([|/=])\s*/)]: the marker (capture 1) and the length of
    the whole match, the marker and the longest run of whitespace after
    it. *)
Definition isMarker (c : Char) : bool :=
  ((c =? bar) || (c =? slash) || (c =? equals))%N.

Fixpoint spaceRun (s : JsString) : nat :=
  match s with
  | c :: s' => if isSpace c then S (spaceRun s') else 0
  | [] => 0
  end.

Definition matchPrefix (text : JsString) : option (Char * nat) :=
  match text with
  | c :: rest => if isMarker c then Some (c, S (spaceRun rest)) else None
  | [] => None
  end.

(** [text.slice(n)] *)
Definition slice (n : nat) (text : JsString) : JsString := skipn n text.

End Js.

Import Js.

(** ** Exceptions

    What a call can throw: the [Error] of [parseGlossNode], the [TypeError]
    of a property read on [undefined], and the message [file.fail] throws. *)

Inductive Result (E A : Type) : Type :=
| Ok (a : A)
| Throw (e : E).

Arguments Ok {E A} a.
Arguments Throw {E A} e.

Definition bind {E A B} (r : Result E A) (k : A -> Result E B) : Result E B :=
  match r with
  | Ok a => k a
  | Throw e => Throw e
  end.

Notation "x <- r ;; k" := (bind r (fun x => k))
  (at level 61, r at next level, right associativity).

Inductive JsError : Type :=
| Error (message : string)
| TypeError (message : string).

Definition message (error : JsError) : string :=
  match error with
  | Error m => m
  | TypeError m => m
  end.

(** Reading a property of [undefined]. *)
Definition undefinedRead : JsError :=
  TypeError "Cannot read properties of undefined".

(** ** mdast inline content *)

Inductive PhrasingContent : Type :=
| Text (value : JsString)
| Break
| Inline (type : string) (children : list PhrasingContent).
  (* emphasis, strong, link, inlineCode, ...: any type but text and break *)

Definition Word := list PhrasingContent.
Definition LineWords := list Word.

(** ** extractLines

    [lines] is the array of arrays of arrays the three functions push to. *)

Definition Lines := list LineWords.

(** [l.at(-1)!] followed by an update of that element in place. *)
Fixpoint atLast {A} (f : A -> Result JsError A) (l : list A)
  : Result JsError (list A) :=
  match l with
  | [] => Throw undefinedRead
  | [x] => x' <- f x ;; Ok [x']
  | x :: xs => xs' <- atLast f xs ;; Ok (x :: xs')
  end.

Definition push {A} (x : A) (l : list A) : list A := l ++ [x].

(** [lines.push([[]])] *)
Definition pushLine (lines : Lines) : Lines := push [[]] lines.

(** [lines.at(-1)!.push([])] *)
Definition pushWord (lines : Lines) : Result JsError Lines :=
  atLast (fun line => Ok (push [] line)) lines.

(** [lines.at(-1)!.at(-1)!.push(node)] *)
Definition pushNode (node : PhrasingContent) (lines : Lines)
  : Result JsError Lines :=
  atLast (atLast (fun word => Ok (push node word))) lines.

Fixpoint forEach {A S} (body : A -> S -> Result JsError S) (l : list A) (s : S)
  : Result JsError S :=
  match l with
  | [] => Ok s
  | x :: xs => s' <- body x s ;; forEach body xs s'
  end.

Definition processToken (token : JsString) (lines : Lines)
  : Result JsError Lines :=
  match token with
  | [] => Ok lines                                  (* if (!token) continue *)
  | _ => if allSpace token then pushWord lines
         else pushNode (Text token) lines
  end.

Definition processTextLine (text : JsString) (lines : Lines)
  : Result JsError Lines :=
  let tokens := split_ws text in
  forEach processToken tokens lines.

(** The loop of [processTextNode] from index [i] on. *)
Fixpoint processTextLines (i : nat) (textLines : list JsString) (lines : Lines)
  : Result JsError Lines :=
  match textLines with
  | [] => Ok lines
  | t :: rest =>
      let lines1 := if 0 <? i then pushLine lines else lines in
      lines2 <- processTextLine t lines1 ;;
      processTextLines (S i) rest lines2
  end.

Definition processTextNode (text : JsString) (lines : Lines)
  : Result JsError Lines :=
  let textLines := split_nl text in
  processTextLines 0 textLines lines.

Definition processChild (child : PhrasingContent) (lines : Lines)
  : Result JsError Lines :=
  match child with
  | Break => Ok (pushLine lines)
  | Text value => processTextNode value lines
  | Inline _ _ => pushNode child lines
  end.

Definition nonEmpty {A} (l : list A) : bool :=
  match l with [] => false | _ => true end.   (* l.length > 0 *)

(** [extractLines] takes the paragraph; only its children are read. *)
Definition extractLines (children : list PhrasingContent)
  : Result JsError (list LineWords) :=
  lines <- forEach processChild children [[[]]] ;;
  Ok (filter nonEmpty (map (fun line => filter nonEmpty line) lines)).

(** ** parseLinePrefix *)

Inductive RowType : Type := RowText | RowTransliteration | RowGloss.

Record GlossRow : Type := { type : RowType; words : list Word }.

Record Gloss : Type := {
  header : option (list PhrasingContent);
  rows : list GlossRow;
  footer : option (list PhrasingContent)
}.

Inductive ParsedLine : Type :=
| ParsedMeta (content : list PhrasingContent)
| ParsedRow (type : RowType) (words : list Word).

(** The loop that builds [content] for a meta line, from index [i] on. *)
Fixpoint joinWords (i : nat) (newWords : list Word)
  (content : list PhrasingContent) : list PhrasingContent :=
  match newWords with
  | [] => content
  | w :: rest =>
      let content1 := if 0 <? i then push (Text (str " ")) content else content in
      joinWords (S i) rest (content1 ++ w)
  end.

Definition parseLinePrefix (words : list Word) : ParsedLine :=
  match words with
  | [] => ParsedRow RowText []
  | [] :: _ => ParsedRow RowText words
  | ((Text text :: _) as firstWord) :: _ =>
      match matchPrefix text with
      | None => ParsedRow RowText words
      | Some (prefix, matched) =>
          let remainder := slice matched text in
          let newFirstWord :=
            if 0 <? length remainder
            then Text remainder :: skipn 1 firstWord
            else skipn 1 firstWord in
          let newWords :=
            if 0 <? length newFirstWord
            then newFirstWord :: skipn 1 words
            else skipn 1 words in
          if (prefix =? bar)%N then ParsedMeta (joinWords 0 newWords [])
          else if (prefix =? slash)%N then ParsedRow RowTransliteration newWords
          else if (prefix =? equals)%N then ParsedRow RowGloss newWords
          else ParsedRow RowText words
      end
  | (_ :: _) :: _ => ParsedRow RowText words
  end.

(** ** mdast block content *)

Record Data : Type := { hName : option string; hClass : option string }.

Inductive Node : Type :=
| Paragraph (data : option Data) (children : list PhrasingContent)
| ListNode (ordered : bool) (spread : option bool) (data : option Data)
    (children : list Node)
| ListItem (spread : option bool) (data : option Data) (children : list Node)
| ContainerDirective (name : string) (data : option Data)
    (children : list Node)
| Block (type : string) (children : list Node).
  (* heading, blockquote, code, ...: any other type *)

(** ** parseGlossNode *)

Inductive Line : Type :=
| MetaLine (content : list PhrasingContent)
| RowLine (row : GlossRow).

Definition classify (line : LineWords) : Line :=
  match parseLinePrefix line with
  | ParsedMeta content => MetaLine content
  | ParsedRow t ws => RowLine {| type := t; words := ws |}
  end.

(** The first loop: the lines of every paragraph child, classified. *)
Definition collectChild (child : Node) (lines : list Line)
  : Result JsError (list Line) :=
  match child with
  | Paragraph _ children =>
      extractedLines <- extractLines children ;;
      forEach (fun line lines => Ok (push (classify line) lines))
        extractedLines lines
  | _ => Ok lines
  end.

Definition collectLines (children : list Node)
  : Result JsError (list Line) :=
  forEach collectChild children [].

Definition placementMessage : string :=
  "Header and footer lines denoted by '|' may only appear at the beginning or end of a gloss block".

(** The second loop, from index [i] on; [n] is [lines.length].  The loop
    body runs only when [n] is positive, where [n - 1] is the last index. *)
Fixpoint placeLines (n i : nat) (lines : list Line)
  (header footer : option (list PhrasingContent)) (rows : list GlossRow)
  : Result JsError Gloss :=
  match lines with
  | [] => Ok {| header := header; rows := rows; footer := footer |}
  | MetaLine content :: rest =>
      if negb (i =? 0) && negb (i =? n - 1) then Throw (Error placementMessage)
      else if i =? 0 then placeLines n (S i) rest (Some content) footer rows
      else placeLines n (S i) rest header (Some content) rows
  | RowLine row :: rest =>
      placeLines n (S i) rest header footer (push row rows)
  end.

Definition assembleLines (lines : list Line) : Result JsError Gloss :=
  placeLines (length lines) 0 lines None None [].

(** [parseGlossNode] takes the directive; only its children are read. *)
Definition parseGlossNode (children : list Node) : Result JsError Gloss :=
  lines <- collectLines children ;;
  assembleLines lines.

(** ** buildColumns and the node constructors *)

Record ColumnWord : Type := { cellType : RowType; word : option Word }.

Definition typeName (t : RowType) : string :=
  match t with
  | RowText => "text"
  | RowTransliteration => "transliteration"
  | RowGloss => "gloss"
  end.

Definition createCell (w : ColumnWord) : Node :=
  ListItem (Some false)
    (Some {| hName := None;
             hClass := Some ("gloss-word gloss-word-" ++ typeName (cellType w))%string |})
    match word w with
    | Some ws => if 0 <? length ws then [Paragraph None ws] else []
    | None => []
    end.

Definition createColumn (words : list ColumnWord) : Node :=
  ListItem None None
    [ListNode true (Some false)
       (Some {| hName := Some "ol"; hClass := Some "gloss-column" |})
       (map createCell words)].

(** [Math.max(0, ...lengths)] *)
Definition maxOf (lengths : list nat) : nat := fold_left Nat.max lengths 0.

(** The cells handed to [createColumn] for column [col]; [row.words[col]]
    is [undefined] past the end of the row. *)
Definition columnWords (rows : list GlossRow) (col : nat) : list ColumnWord :=
  map (fun row => {| cellType := type row; word := nth_error (words row) col |})
    rows.

Definition buildColumns (rows : list GlossRow) : list Node :=
  let numColumns := maxOf (map (fun row => length (words row)) rows) in
  map (fun col => createColumn (columnWords rows col)) (seq 0 numColumns).

Definition createHeader (content : list PhrasingContent) : Node :=
  Paragraph (Some {| hName := Some "figcaption"; hClass := Some "gloss-header" |})
    content.

Definition createWordGrid (columns : list Node) : Node :=
  ListNode true (Some false)
    (Some {| hName := Some "ol"; hClass := Some "gloss-body" |}) columns.

Definition createFooter (content : list PhrasingContent) : Node :=
  Paragraph (Some {| hName := Some "p"; hClass := Some "gloss-footer" |}) content.

(** ** remarkGloss

    The file the transformer reports to: its list of messages.  [file.fail]
    builds a message whose [fatal] is true, stores it and throws it. *)

Record VFileMessage : Type := {
  reason : string;
  place : Node;
  fatal : bool
}.

Definition VFile := list VFileMessage.

Definition fail (reason : string) (place : Node) (file : VFile)
  : VFile * VFileMessage :=
  let m := {| reason := reason; place := place; fatal := true |} in
  (push m file, m).

(** The outcome of a traversal step: the node as it is now, the file as it
    is now, and the exception that stopped the traversal, if one did. *)
Definition Outcome (A : Type) : Type := A * VFile * option VFileMessage.

(** The children the visitor installs. *)
Definition figureChildren (parseResult : Gloss) : list Node :=
  let columns := buildColumns (rows parseResult) in
  (match header parseResult with
   | Some h => [createHeader h]
   | None => []
   end)
  ++ (if 0 <? length columns then [createWordGrid columns] else [])
  ++ (match footer parseResult with
      | Some f => [createFooter f]
      | None => []
      end).

Definition figureData : Data :=
  {| hName := Some "figure"; hClass := Some "gloss" |}.

(** The visitor, called on every container directive.  In the handler of
    the try statement [file.fail] throws, so the statements after it, which
    read [parseResult], run only when [parseGlossNode] returned. *)
Definition visitor (node : Node) (file : VFile) : Outcome Node :=
  match node with
  | ContainerDirective name data children =>
      if negb (name =? "gloss")%string then (node, file, None)
      else
        match parseGlossNode children with
        | Throw error =>
            let (file', thrown) := fail (message error) node file in
            (node, file', Some thrown)
        | Ok parseResult =>
            (ContainerDirective name (Some figureData)
               (figureChildren parseResult), file, None)
        end
  | _ => (node, file, None)
  end.

(** [visit(tree, "containerDirective", visitor)]: the nodes in document
    order, parents before children; an exception of the visitor stops the
    traversal where it is.  After the visitor has rebuilt a gloss block the
    traversal goes through the new children, which hold no container
    directive (see [visitAll_figureChildren]). *)
Fixpoint visit (node : Node) (file : VFile) : Outcome Node :=
  let visitAll :=
    fix visitAll (nodes : list Node) (file : VFile) : Outcome (list Node) :=
      match nodes with
      | [] => ([], file, None)
      | n :: rest =>
          match visit n file with
          | (n', file', Some thrown) => (n' :: rest, file', Some thrown)
          | (n', file', None) =>
              match visitAll rest file' with
              | (rest', file'', thrown) => (n' :: rest', file'', thrown)
              end
          end
      end in
  match node with
  | Paragraph _ _ => (node, file, None)
  | ListNode ordered spread data children =>
      match visitAll children file with
      | (children', file', thrown) =>
          (ListNode ordered spread data children', file', thrown)
      end
  | ListItem spread data children =>
      match visitAll children file with
      | (children', file', thrown) => (ListItem spread data children', file', thrown)
      end
  | Block t children =>
      match visitAll children file with
      | (children', file', thrown) => (Block t children', file', thrown)
      end
  | ContainerDirective name data children =>
      if (name =? "gloss")%string then visitor node file
      else
        match visitAll children file with
        | (children', file', thrown) =>
            (ContainerDirective name data children', file', thrown)
        end
  end.

Fixpoint visitAll (nodes : list Node) (file : VFile) : Outcome (list Node) :=
  match nodes with
  | [] => ([], file, None)
  | n :: rest =>
      match visit n file with
      | (n', file', Some thrown) => (n' :: rest, file', Some thrown)
      | (n', file', None) =>
          match visitAll rest file' with
          | (rest', file'', thrown) => (n' :: rest', file'', thrown)
          end
      end
  end.

(** The transformer, on the children of the root. *)
Definition remarkGloss (tree : list Node) (file : VFile) : Outcome (list Node) :=
  visitAll tree file.

(** ** remarkSmallcaps

    The small-caps plugin goes through every node of the tree, of any type,
    so its tree is the generic one: a type, for a directive a name, the
    data, for a literal a value, and the children. *)

Module Smallcaps.

(** [node.data]: the two fields the plugin writes and the other fields. *)
Record Data : Type := {
  hName : option string;
  hProperties : option (list (string * string));
  others : list (string * string)
}.

Inductive Node : Type :=
| mkNode (type : string) (name : option string) (data : option Data)
    (value : option JsString) (children : list Node).

Definition type (node : Node) : string :=
  match node with mkNode t _ _ _ _ => t end.
Definition name (node : Node) : option string :=
  match node with mkNode _ n _ _ _ => n end.
Definition data (node : Node) : option Data :=
  match node with mkNode _ _ d _ _ => d end.
Definition value (node : Node) : option JsString :=
  match node with mkNode _ _ _ v _ => v end.
Definition children (node : Node) : list Node :=
  match node with mkNode _ _ _ _ ch => ch end.

Definition isDirective (t : string) : bool :=
  ((t =? "containerDirective") || (t =? "leafDirective")
   || (t =? "textDirective"))%string.

(** [directive.name !== "smallcaps" && directive.name !== "sc"] is false. *)
Definition isSmallcaps (name : option string) : bool :=
  match name with
  | Some n => negb (negb (n =? "smallcaps")%string && negb (n =? "sc")%string)
  | None => false
  end.

(** [directive.data || (directive.data = {})] *)
Definition dataOrEmpty (data : option Data) : Data :=
  match data with
  | Some d => d
  | None => {| hName := None; hProperties := None; others := [] |}
  end.

(** The function given to [visit]; it writes to [node.data] only. *)
Definition visitor (node : Node) : Node :=
  match node with
  | mkNode t n d v ch =>
      if isDirective t then
        if negb (isSmallcaps n) then node
        else
          let data := dataOrEmpty d in
          mkNode t n
            (Some {| hName := Some (if (t =? "textDirective")%string
                                    then "span" else "div");
                     hProperties := Some [("className", "smallcaps")];
                     others := others data |})
            v ch
      else node
  end.

(** [visit(tree, visitor)]: the visitor on the node, then the traversal of
    its children, which the visitor has left in place. *)
Fixpoint visit (node : Node) : Node :=
  match node with
  | mkNode t n d v ch =>
      match visitor (mkNode t n d v ch) with
      | mkNode t' n' d' v' _ => mkNode t' n' d' v' (map visit ch)
      end
  end.

Definition remarkSmallcaps (tree : Node) : Node := visit tree.

(** The data the visitor leaves in a node of type [t], name [n] and data
    [d]. *)
Definition dataAfter (t : string) (n : option string) (d : option Data)
  : option Data :=
  if isDirective t && isSmallcaps n
  then Some {| hName := Some (if (t =? "textDirective")%string
                              then "span" else "div");
               hProperties := Some [("className", "smallcaps")];
               others := others (dataOrEmpty d) |}
  else d.

(** The nodes of a tree, parents before children. *)
Fixpoint nodes (node : Node) : list Node :=
  match node with
  | mkNode _ _ _ _ ch => node :: flat_map nodes ch
  end.

(** A directive the plugin styles. *)
Definition marked (node : Node) : bool :=
  isDirective (type node) && isSmallcaps (name node).

(** The data of a styled directive: the element name by the type of the
    directive and the class. *)
Definition styled (node : Node) : Prop :=
  exists rest : list (string * string),
    data node =
      Some {| hName := Some (if (type node =? "textDirective")%string
                             then "span" else "div");
              hProperties := Some [("className", "smallcaps")];
              others := rest |}.

(** How a node of the result stands to the node of the source at the same
    place: the same type, name, value and number of children; the same data
    when the source node is not a directive the plugin styles; otherwise the
    styled data, with the other fields of the source's data. *)
Definition Restyled (x y : Node) : Prop :=
  type y = type x /\ name y = name x /\ value y = value x
  /\ length (children y) = length (children x)
  /\ (marked x = false -> data y = data x)
  /\ (marked x = true ->
      styled y
      /\ others (dataOrEmpty (data y)) = others (dataOrEmpty (data x))).

(** A tree without what the plugin writes: every node with the other
    fields of its data only. *)
Fixpoint forget (node : Node) : Node :=
  match node with
  | mkNode t n d v ch =>
      mkNode t n
        (Some {| hName := None; hProperties := None;
                 others := others (dataOrEmpty d) |})
        v (map forget ch)
  end.

End Smallcaps.

(** ** rehypeWrapTables

    The tree is a hast tree: elements, texts and the other literals. *)

Module WrapTables.

Inductive Node : Type :=
| Element (tagName : string) (properties : list (string * list string))
    (children : list Node)
| Text (value : JsString)
| Literal (type : string) (value : JsString).   (* comment, doctype, raw *)

Definition isTable (node : Node) : bool :=
  match node with
  | Element tagName _ _ => (tagName =? "table")%string
  | _ => false
  end.

(** The element the visitor puts in the place of a table. *)
Definition container (node : Node) : Node :=
  Element "div" [("className", ["table-container"])] [node].

(** The traversal from a node down: the visitor is called on the node by
    the traversal of its parent, which holds the slot the visitor writes
    to; here every child that is a table is replaced in its slot, and the
    traversal goes on into the child itself, table or not. *)
Fixpoint visit (node : Node) : Node :=
  match node with
  | Element tagName properties children =>
      Element tagName properties
        (map (fun child => if isTable child then container (visit child)
                           else visit child) children)
  | _ => node
  end.

(** What is in the slot of a child once the traversal is past it. *)
Definition slot (child : Node) : Node :=
  if isTable child then container (visit child) else visit child.

(** The transformer, on the children of the root. *)
Definition rehypeWrapTables (tree : list Node) : list Node := map slot tree.

(** An element as [container] makes them: a div of the one class with one
    child. *)
Definition isContainer (node : Node) : bool :=
  match node with
  | Element tagName [(key, [class])] [_] =>
      ((tagName =? "div") && (key =? "className")
       && (class =? "table-container"))%string
  | _ => false
  end.

(** The tables and the containers of one table in a tree. *)
Fixpoint countTables (node : Node) : nat :=
  match node with
  | Element tagName _ children =>
      (if (tagName =? "table")%string then 1 else 0)
      + list_sum (map countTables children)
  | _ => 0
  end.

Fixpoint countContainers (node : Node) : nat :=
  match node with
  | Element tagName properties children =>
      (if isContainer (Element tagName properties children) then 1 else 0)
      + list_sum (map countContainers children)
  | _ => 0
  end.

(** Every table below the node is the one child of a container;
    [inContainer] says whether the node itself is such a child. *)
Fixpoint wrapped (inContainer : bool) (node : Node) : bool :=
  match node with
  | Element tagName properties children =>
      (if (tagName =? "table")%string then inContainer else true)
      && forallb (wrapped (isContainer (Element tagName properties children)))
           children
  | _ => true
  end.

(** The way back: a container of one table gives way to the table. *)
Fixpoint unwrap (node : Node) : Node :=
  match node with
  | Element tagName properties children =>
      Element tagName properties
        (map (fun child =>
                match child with
                | Element _ _ [inner] =>
                    if isContainer child && isTable inner then unwrap inner
                    else unwrap child
                | _ => unwrap child
                end) children)
  | _ => node
  end.

Definition unslot (child : Node) : Node :=
  match child with
  | Element _ _ [inner] =>
      if isContainer child && isTable inner then unwrap inner
      else unwrap child
  | _ => unwrap child
  end.

End WrapTables.

(** * Reference definitions

    What the components are meant to compute, written independently of the
    loops above; the properties below relate the two. *)

(** The word count of a row. *)
Definition wordCount (row : GlossRow) : nat := length (words row).

(** The content of the line at index [i] when that line is a meta line. *)
Definition metaAt (lines : list Line) (i : nat)
  : option (list PhrasingContent) :=
  match nth_error lines i with
  | Some (MetaLine content) => Some content
  | _ => None
  end.

Definition isMeta (line : Line) : bool :=
  match line with
  | MetaLine _ => true
  | RowLine _ => false
  end.

(** Some line other than the first and the last is a meta line. *)
Definition interiorMeta (lines : list Line) : bool :=
  existsb isMeta (removelast (tl lines)).

(** The rows among the lines, in order. *)
Definition rowsOf (lines : list Line) : list GlossRow :=
  flat_map (fun line => match line with
                        | RowLine row => [row]
                        | MetaLine _ => []
                        end) lines.

(** The gloss the placement law assigns to lines without an interior meta
    line: the header from index 0, the footer from the last index when there
    are at least two lines. *)
Definition placed (lines : list Line) : Gloss :=
  {| header := metaAt lines 0;
     rows := rowsOf lines;
     footer := if 1 <? length lines then metaAt lines (length lines - 1)
               else None |}.

Definition isParagraph (node : Node) : bool :=
  match node with
  | Paragraph _ _ => true
  | _ => false
  end.

Definition startsWithMarker (text : JsString) : bool :=
  match text with
  | c :: _ => isMarker c
  | [] => false
  end.

Definition startsWithSpace (text : JsString) : bool :=
  match text with
  | c :: _ => isSpace c
  | [] => false
  end.

(** The words of a line whose first span is cut down to the text [rem]:
    an empty [rem] drops the span, and a first word left without a span is
    dropped; the words after the first are [rest]. *)
Definition strippedWords (rem : JsString) (spans : list PhrasingContent)
  (rest : list Word) : list Word :=
  let firstWord := match rem with
                   | [] => spans
                   | _ => Text rem :: spans
                   end in
  match firstWord with
  | [] => rest
  | _ => firstWord :: rest
  end.

(** The spans of the words in one sequence, with one space span between
    two adjacent words and none before the first or after the last. *)
Fixpoint spaced (ws : list Word) : list PhrasingContent :=
  match ws with
  | [] => []
  | w :: rest =>
      match rest with
      | [] => w
      | _ => w ++ Text (str " ") :: spaced rest
      end
  end.

(** The maximal runs of characters other than whitespace in a text, from
    left to right; [cur] is the run being read, last character first. *)
Definition flush (cur : JsString) : list JsString :=
  match cur with
  | [] => []
  | _ => [rev cur]
  end.

Fixpoint textRuns (cur : JsString) (s : JsString) : list JsString :=
  match s with
  | [] => flush cur
  | c :: s' =>
      if isSpace c then flush cur ++ textRuns [] s'
      else textRuns (c :: cur) s'
  end.

(** The spans a child contributes to the lines: a text its runs, one text
    span each; a break none; any other node itself. *)
Definition childSpans (child : PhrasingContent) : list PhrasingContent :=
  match child with
  | Text value => map Text (textRuns [] value)
  | Break => []
  | Inline _ _ => [child]
  end.

(** The spans of all words of all lines, in order. *)
Definition spansOf (lines : list LineWords) : list PhrasingContent :=
  concat (concat lines).

(** The state of the extractor between two steps: there is a last line and
    it has a last word. *)
Definition Open (lines : Lines) : Prop :=
  exists (ls : Lines) (ws : LineWords) (w : Word), lines = ls ++ [ws ++ [w]].

(** A step that succeeds from an open state, leaves it open and appends
    [added] to the spans. *)
Definition Appends (step : Lines -> Result JsError Lines)
  (added : list PhrasingContent) : Prop :=
  forall lines : Lines,
    Open lines ->
    exists lines' : Lines,
      step lines = Ok lines' /\ Open lines'
      /\ spansOf lines' = spansOf lines ++ added.

(** The span a token of [processTextLine] contributes. *)
Definition tokenSpan (token : JsString) : list PhrasingContent :=
  match token with
  | [] => []
  | _ => if allSpace token then [] else [Text token]
  end.

Definition rowWordsNonEmpty (parsed : ParsedLine) : Prop :=
  match parsed with
  | ParsedRow _ ws => Forall (fun w => w <> []) ws
  | ParsedMeta _ => True
  end.

(** What [remarkGloss] leaves behind when it stops on an exception: the
    exception is the fatal message with the placement text, and it is the
    one message added to the file; without an exception the file is as it
    was. *)
Definition FailsFatally {A} (file : VFile) (outcome : Outcome A) : Prop :=
  match outcome with
  | (_, file', Some thrown) =>
      fatal thrown = true /\ reason thrown = placementMessage
      /\ file' = file ++ [thrown]
  | (_, file', None) => file' = file
  end.

(** A step of the extractor that works on the last line and after it: the
    lines before the last one of a state that has a last line are left as
    they are, and the state keeps a last line. *)
Definition Framed (step : Lines -> Result JsError Lines) : Prop :=
  forall (ls st : Lines),
    st <> [] ->
    step (ls ++ st) = (st' <- step st ;; Ok (ls ++ st'))
    /\ forall st' : Lines, step st = Ok st' -> st' <> [].

(** [extractLines] before the empty words and the empty lines are dropped. *)
Definition rawLines (children : list PhrasingContent) : Result JsError Lines :=
  forEach processChild children [[[]]].

(** A child that puts no span on a line: a break, or a text of whitespace
    only. *)
Definition blankChild (child : PhrasingContent) : bool :=
  match child with
  | Text value => forallb isSpace value
  | Break => true
  | Inline _ _ => false
  end.

(** A span as the extractor makes them: a text that is not empty and holds
    no whitespace, or a node other than a text or a break. *)
Definition cleanSpan (span : PhrasingContent) : Prop :=
  match span with
  | Text value =>
      value <> [] /\ forallb (fun c => negb (isSpace c)) value = true
  | Break => False
  | Inline _ _ => True
  end.

Definition optCount {A} (o : option A) : nat :=
  match o with
  | Some _ => 1
  | None => 0
  end.

(** The words found for row [r] when the columns are read from left to
    right. *)
Definition rowFromColumns (rows : list GlossRow) (r : nat) : list Word :=
  flat_map (fun col => match nth_error (columnWords rows col) r with
                       | Some cell => match word cell with
                                      | Some w => [w]
                                      | None => []
                                      end
                       | None => []
                       end)
    (seq 0 (length (buildColumns rows))).

(** No gloss block in a node or below it. *)
Fixpoint noGloss (node : Node) : bool :=
  match node with
  | Paragraph _ _ => true
  | ListNode _ _ _ children => forallb noGloss children
  | ListItem _ _ children => forallb noGloss children
  | ContainerDirective name _ children =>
      negb (name =? "gloss")%string && forallb noGloss children
  | Block _ children => forallb noGloss children
  end.

(** Two nodes of the same type, and of the same name for directives. *)
Definition sameHead (n n' : Node) : Prop :=
  match n, n' with
  | Paragraph _ _, Paragraph _ _ => True
  | ListNode _ _ _ _, ListNode _ _ _ _ => True
  | ListItem _ _ _, ListItem _ _ _ => True
  | ContainerDirective name _ _, ContainerDirective name' _ _ => name = name'
  | Block t _, Block t' _ => t = t'
  | _, _ => False
  end.

(** A classified line whose row, if it is one, has no empty word. *)
Definition nonEmptyWords (line : Line) : Prop :=
  match line with
  | RowLine row => Forall (fun w => w <> []) (words row)
  | MetaLine _ => True
  end.

(** The children the traversal goes through below a node, and the node
    with other children in their place. *)
Definition childrenOf (node : Node) : list Node :=
  match node with
  | Paragraph _ _ => []
  | ListNode _ _ _ children => children
  | ListItem _ _ children => children
  | ContainerDirective _ _ children => children
  | Block _ children => children
  end.

Definition withChildren (node : Node) (children : list Node) : Node :=
  match node with
  | Paragraph data content => Paragraph data content
  | ListNode ordered spread data _ => ListNode ordered spread data children
  | ListItem spread data _ => ListItem spread data children
  | ContainerDirective name data _ => ContainerDirective name data children
  | Block t _ => Block t children
  end.

Definition isGlossBlock (node : Node) : bool :=
  match node with
  | ContainerDirective name _ _ => (name =? "gloss")%string
  | _ => false
  end.

(** [Stops file node node' thrown]: the traversal of [node] stops on the
    exception [thrown] and leaves [node'].  It stops at a gloss block that
    [parseGlossNode] rejects, which is left as it was; above that block, at
    every level, the children before the one it stops in have been
    traversed to their end and the children after it are left as they
    were. *)
Inductive Stops (file : VFile) : Node -> Node -> VFileMessage -> Prop :=
| Stops_block (data : option Data) (children : list Node) (e : JsError) :
    parseGlossNode children = Throw e ->
    Stops file (ContainerDirective "gloss" data children)
      (ContainerDirective "gloss" data children)
      {| reason := placementMessage;
         place := ContainerDirective "gloss" data children;
         fatal := true |}
| Stops_below (node : Node) (before before' after : list Node) (c c' : Node)
    (thrown : VFileMessage) :
    isParagraph node = false -> isGlossBlock node = false ->
    childrenOf node = before ++ c :: after ->
    visitAll before file = (before', file, None) ->
    Stops file c c' thrown ->
    Stops file node (withChildren node (before' ++ c' :: after)) thrown.

(** * Properties *)

(** ** The plugin on small blocks *)

(** A caption, a text row, a transliteration row and a gloss row. *)
Example parseGlossNode_four_lines :
  parseGlossNode
    [Paragraph None
       [Text (str "| A caption"); Break; Text (str "The dog"); Break;
        Text (str "/ le chien"); Break; Text (str "= the dog")]] =
  Ok {| header := Some [Text (str "A"); Text (str " "); Text (str "caption")];
        rows := [ {| type := RowText;
                     words := [[Text (str "The")]; [Text (str "dog")]] |};
                  {| type := RowTransliteration;
                     words := [[Text (str "le")]; [Text (str "chien")]] |};
                  {| type := RowGloss;
                     words := [[Text (str "the")]; [Text (str "dog")]] |} ];
        footer := None |}.
Proof. reflexivity. Qed.

(** A caption alone: the header, no row, no footer, no column. *)
Example parseGlossNode_caption_only :
  parseGlossNode [Paragraph None [Text (str "| Only a caption")]] =
  Ok {| header := Some [Text (str "Only"); Text (str " "); Text (str "a");
                        Text (str " "); Text (str "caption")];
        rows := [];
        footer := None |}
  /\ buildColumns [] = [].
Proof. split; reflexivity. Qed.

(** A marker with nothing after it: a gloss row without words, and no
    column. *)
Example parseGlossNode_marker_only :
  parseGlossNode [Paragraph None [Text (str "=")]] =
  Ok {| header := None;
        rows := [ {| type := RowGloss; words := [] |} ];
        footer := None |}
  /\ buildColumns [ {| type := RowGloss; words := [] |} ] = [].
Proof. split; reflexivity. Qed.

(** A rich node stays whole and joins the word it touches. *)
Example extractLines_rich_node :
  extractLines
    [Text (str "the "); Inline "emphasis" [Text (str "dog")]; Text (str "s run")] =
  Ok [[ [Text (str "the")];
        [Inline "emphasis" [Text (str "dog")]; Text (str "s")];
        [Text (str "run")] ]].
Proof. reflexivity. Qed.

(** ** The column builder *)

Section Columns.

Lemma maxOf_list_max (lengths : list nat) : maxOf lengths = list_max lengths.
Proof.
  unfold maxOf, list_max.
  apply fold_symmetric.
  - intros x y z. apply Nat.max_assoc.
  - intros y. apply Nat.max_comm.
Qed.

Lemma buildColumns_nth (rows : list GlossRow) (col : nat) :
  nth_error (buildColumns rows) col =
    if col <? list_max (map wordCount rows)
    then Some (createColumn (columnWords rows col))
    else None.
Proof.
  unfold buildColumns.
  rewrite nth_error_map, nth_error_seq, maxOf_list_max.
  fold wordCount.
  destruct (col <? list_max (map wordCount rows)); reflexivity.
Qed.

Lemma columnWords_nth (rows : list GlossRow) (col r : nat) :
  nth_error (columnWords rows col) r =
    option_map
      (fun row => {| cellType := type row; word := nth_error (words row) col |})
      (nth_error rows r).
Proof. unfold columnWords. apply nth_error_map. Qed.

Lemma nth_error_nth_lt {A} (l : list A) (n : nat) (d : A) :
  nth_error l n = if n <? length l then Some (nth n l d) else None.
Proof.
  destruct (Nat.ltb_spec n (length l)) as [Hlt | Hge].
  - now apply nth_error_nth'.
  - now apply nth_error_None.
Qed.

End Columns.

(** C4: the number of columns [buildColumns] produces is the largest word
    count among the rows, and it is 0 for the empty row list. *)
Theorem buildColumns_count :
  (forall rows : list GlossRow,
     length (buildColumns rows) = list_max (map wordCount rows))
  /\ buildColumns [] = [].
Proof.
  split; [| reflexivity].
  intros rows. unfold buildColumns.
  now rewrite length_map, length_seq, maxOf_list_max.
Qed.

(** C3: for a column index [col] below the column count, column [col] is
    built from one cell per row, in row order; the cell of row [r] carries
    the row's role and the row's word at [col] when the row has one, and no
    word otherwise.  The cell is without a word exactly when [col] is at or
    past the row's word count, and a row whose word at [col] is the empty
    word gets that empty word, not an absent one. *)
Theorem buildColumns_cells (rows : list GlossRow) (col : nat) :
  col < list_max (map wordCount rows) ->
  nth_error (buildColumns rows) col = Some (createColumn (columnWords rows col))
  /\ length (columnWords rows col) = length rows
  /\ forall (r : nat) (row : GlossRow),
       nth_error rows r = Some row ->
       exists cell : ColumnWord,
         nth_error (columnWords rows col) r = Some cell
         /\ cellType cell = type row
         /\ word cell =
              (if col <? wordCount row then Some (nth col (words row) []) else None)
         /\ (word cell = None <-> wordCount row <= col)
         /\ (nth_error (words row) col = Some [] -> word cell = Some []).
Proof.
  intros Hcol. split; [| split].
  - rewrite buildColumns_nth.
    apply Nat.ltb_lt in Hcol. now rewrite Hcol.
  - unfold columnWords. apply length_map.
  - intros r row Hrow.
    exists {| cellType := type row; word := nth_error (words row) col |}.
    rewrite columnWords_nth, Hrow. cbn.
    repeat split.
    + apply nth_error_nth_lt.
    + intros H. now apply nth_error_None.
    + intros H. now apply nth_error_None.
    + trivial.
Qed.

(** Two rows of three and two words: in the last column the shorter row
    has no word. *)
Lemma buildColumns_cells_witness :
  let rows :=
    [ {| type := RowText;
         words := [[Text (str "The")]; [Text (str "dog")]; [Text (str "runs")]] |};
      {| type := RowGloss;
         words := [[Text (str "the")]; [Text (str "dog")]] |} ] in
  nth_error (buildColumns rows) 2 = Some (createColumn (columnWords rows 2))
  /\ columnWords rows 2 =
       [ {| cellType := RowText; word := Some [Text (str "runs")] |};
         {| cellType := RowGloss; word := None |} ].
Proof.
  intros rows.
  assert (Hcol : 2 < list_max (map wordCount rows)) by (vm_compute; lia).
  split.
  - exact (proj1 (buildColumns_cells rows 2 Hcol)).
  - reflexivity.
Defined.

(** ** The assembler *)

Section Assembler.

Lemma removelast_cons2 {A} (x y : A) (l : list A) :
  removelast (x :: y :: l) = x :: removelast (y :: l).
Proof. reflexivity. Qed.

Lemma placeLines_row n i row rest h f rs :
  placeLines n i (RowLine row :: rest) h f rs =
    placeLines n (S i) rest h f (push row rs).
Proof. reflexivity. Qed.

Lemma placeLines_meta n i c rest h f rs :
  placeLines n i (MetaLine c :: rest) h f rs =
    if negb (i =? 0) && negb (i =? n - 1) then Throw (Error placementMessage)
    else if i =? 0 then placeLines n (S i) rest (Some c) f rs
    else placeLines n (S i) rest h (Some c) rs.
Proof. reflexivity. Qed.

(** The loop once past index 0: the header is settled, a meta line is
    accepted only as the last line. *)
Lemma placeLines_tail (n : nat) (rest : list Line) :
  forall (i : nat) (h f : option (list PhrasingContent)) (rs : list GlossRow),
    0 < i -> n = i + length rest ->
    placeLines n i rest h f rs =
      if existsb isMeta (removelast rest)
      then Throw (Error placementMessage)
      else Ok {| header := h;
                 rows := rs ++ rowsOf rest;
                 footer := match metaAt rest (length rest - 1) with
                           | Some c => Some c
                           | None => f
                           end |}.
Proof.
  induction rest as [| x rest IH]; intros i h f rs Hi Hn.
  - cbn. now rewrite app_nil_r.
  - destruct rest as [| y rest'].
    + (* the last line *)
      assert (Hlast : (i =? n - 1) = true)
        by (apply Nat.eqb_eq; cbn in Hn; lia).
      assert (Hnz : (i =? 0) = false) by (apply Nat.eqb_neq; lia).
      destruct x as [c | row]; cbn; rewrite ?Hlast, ?Hnz; cbn.
      * now rewrite app_nil_r.
      * reflexivity.
    + (* a line with another one after it *)
      assert (Hmid : (i =? n - 1) = false)
        by (apply Nat.eqb_neq; cbn in Hn; lia).
      assert (Hnz : (i =? 0) = false) by (apply Nat.eqb_neq; lia).
      rewrite removelast_cons2.
      destruct x as [c | row].
      * rewrite placeLines_meta, Hmid, Hnz. reflexivity.
      * rewrite placeLines_row. cbn [existsb isMeta orb].
        rewrite IH by (cbn in *; lia).
        destruct (existsb isMeta (removelast (y :: rest'))); [reflexivity |].
        unfold push. rewrite <- app_assoc.
        replace (length (RowLine row :: y :: rest') - 1)
          with (S (length (y :: rest') - 1)) by (cbn; lia).
        reflexivity.
Qed.

Lemma assembleLines_placed (lines : list Line) :
  assembleLines lines =
    if interiorMeta lines then Throw (Error placementMessage)
    else Ok (placed lines).
Proof.
  unfold assembleLines, interiorMeta, placed.
  destruct lines as [| x rest]; [reflexivity |].
  assert (Hfoot : (if 1 <? length (x :: rest)
                   then metaAt (x :: rest) (length (x :: rest) - 1)
                   else None) =
                  metaAt rest (length rest - 1)).
  { destruct rest as [| y rest']; [reflexivity |].
    replace (length (x :: y :: rest') - 1)
      with (S (length (y :: rest') - 1)) by (cbn; lia).
    reflexivity. }
  rewrite Hfoot.
  destruct x as [c | row];
    rewrite ?placeLines_row, ?placeLines_meta; cbn [Nat.eqb negb andb tl];
    rewrite placeLines_tail by (cbn; lia);
    destruct (existsb isMeta (removelast rest)); try reflexivity;
    unfold metaAt at 2; cbn [nth_error]; cbn [rowsOf flat_map app push];
    destruct (metaAt rest (length rest - 1)); reflexivity.
Qed.

Lemma nth_error_removelast {A} (l : list A) (i : nat) :
  nth_error (removelast l) i =
    if i <? length l - 1 then nth_error l i else None.
Proof.
  rewrite removelast_firstn_len, nth_error_firstn.
  now replace (pred (length l)) with (length l - 1) by lia.
Qed.

(** [interiorMeta] in terms of indices. *)
Lemma interiorMeta_index (lines : list Line) :
  interiorMeta lines = true <->
  exists (i : nat) (c : list PhrasingContent),
    nth_error lines i = Some (MetaLine c) /\ i <> 0 /\ i <> length lines - 1.
Proof.
  unfold interiorMeta. rewrite existsb_exists. split.
  - intros [x [Hin Hx]].
    apply In_nth_error in Hin. destruct Hin as [j Hj].
    rewrite nth_error_removelast in Hj.
    destruct (Nat.ltb_spec j (length (tl lines) - 1)) as [Hlt | _];
      [| discriminate].
    destruct lines as [| l0 rest]; [now destruct j |].
    cbn [tl] in *. destruct x as [c | row]; [| discriminate].
    exists (S j), c. cbn. repeat split; [exact Hj | lia | lia].
  - intros [i [c [Hi [Hnz Hnl]]]].
    exists (MetaLine c). split; [| reflexivity].
    destruct lines as [| l0 rest]; [now destruct i |].
    destruct i as [| j]; [contradiction |].
    cbn [tl nth_error] in *.
    apply nth_error_In with (n := j).
    rewrite nth_error_removelast.
    assert (Hj : j < length rest) by (apply nth_error_Some; congruence).
    cbn in Hnl.
    destruct (Nat.ltb_spec j (length rest - 1)); [exact Hi | lia].
Qed.

End Assembler.

(** C2: the second loop of [parseGlossNode] fails exactly when some line
    other than the first and the last is a meta line; otherwise a meta line
    at index 0 is the header, a meta line at index n-1 (n > 1) is the footer
    and the others are the rows, in order, each with its role and words.  A
    single meta line is the header and leaves the footer absent. *)
Theorem assembleLines_placement :
  (forall lines : list Line,
     assembleLines lines =
       if interiorMeta lines then Throw (Error placementMessage)
       else Ok {| header := metaAt lines 0;
                  rows := rowsOf lines;
                  footer := if 1 <? length lines
                            then metaAt lines (length lines - 1)
                            else None |})
  /\ (forall lines : list Line,
        interiorMeta lines = true <->
        exists (i : nat) (c : list PhrasingContent),
          nth_error lines i = Some (MetaLine c)
          /\ i <> 0 /\ i <> length lines - 1)
  /\ (forall c : list PhrasingContent,
        assembleLines [MetaLine c] =
          Ok {| header := Some c; rows := []; footer := None |}).
Proof.
  split; [| split].
  - exact assembleLines_placed.
  - exact interiorMeta_index.
  - reflexivity.
Qed.

(** ** Children of a gloss block that are not paragraphs *)

Section Children.

Lemma collectLines_paragraphs (children : list Node) :
  forall lines : list Line,
    forEach collectChild children lines =
    forEach collectChild (filter isParagraph children) lines.
Proof.
  induction children as [| child children IH]; intros lines; [reflexivity |].
  destruct child; cbn [filter isParagraph forEach collectChild bind];
    try apply IH.
  destruct (extractLines children0) as [extracted | e]; cbn [bind];
    [| reflexivity].
  destruct (forEach _ extracted lines) as [lines' | e]; cbn [bind];
    [apply IH | reflexivity].
Qed.

Lemma collectLines_others (children : list Node) :
  forall lines : list Line,
    forEach collectChild
      (filter (fun node => negb (isParagraph node)) children) lines =
    Ok lines.
Proof.
  induction children as [| child children IH]; intros lines; [reflexivity |].
  destruct child; cbn [filter isParagraph negb forEach collectChild bind];
    apply IH.
Qed.

End Children.

(** C10: [parseGlossNode] reads the paragraph children only: the other
    children can be left out without changing the result, and children that
    are all of other types give a gloss with no header, no row and no
    footer, without an error. *)
Theorem parseGlossNode_paragraphs_only :
  (forall children : list Node,
     parseGlossNode children = parseGlossNode (filter isParagraph children))
  /\ (forall children : list Node,
        parseGlossNode (filter (fun node => negb (isParagraph node)) children) =
          Ok {| header := None; rows := []; footer := None |}).
Proof.
  split; intros children; unfold parseGlossNode, collectLines.
  - now rewrite collectLines_paragraphs.
  - now rewrite collectLines_others.
Qed.

(** ** The prefix classifier *)

Section Classifier.

Lemma spaceRun_app (sp rem : JsString) :
  forallb isSpace sp = true -> startsWithSpace rem = false ->
  spaceRun (sp ++ rem) = length sp.
Proof.
  intros Hsp Hrem.
  induction sp as [| c sp IH]; cbn [spaceRun app forallb length] in *.
  - destruct rem as [| d rem]; [reflexivity |].
    cbn [spaceRun startsWithSpace] in *. now rewrite Hrem.
  - apply andb_prop in Hsp. destruct Hsp as [Hc Hsp].
    rewrite Hc. f_equal. now apply IH.
Qed.

(** The remainder after the match is what follows the whitespace. *)
Lemma slice_match (m : Char) (sp rem : JsString) :
  forallb isSpace sp = true -> startsWithSpace rem = false ->
  slice (S (spaceRun (sp ++ rem))) (m :: sp ++ rem) = rem.
Proof.
  intros Hsp Hrem. rewrite spaceRun_app by assumption.
  unfold slice. cbn [skipn]. now rewrite skipn_app, skipn_all, Nat.sub_diag.
Qed.

(** Every text splits into its leading whitespace and the rest. *)
Lemma spaceRun_split (text : JsString) :
  exists sp rem : JsString,
    text = sp ++ rem /\ forallb isSpace sp = true
    /\ startsWithSpace rem = false.
Proof.
  induction text as [| c text [sp [rem [Heq [Hsp Hrem]]]]].
  - now exists [], [].
  - destruct (isSpace c) eqn:Hc.
    + exists (c :: sp), rem. cbn. rewrite Hc, Hsp. now subst.
    + exists [], (c :: text). cbn. now rewrite Hc.
Qed.

(** What [parseLinePrefix] computes on a line that starts with a marker. *)
Lemma parseLinePrefix_marker (m : Char) (sp rem : JsString)
  (spans : list PhrasingContent) (rest : list Word) :
  isMarker m = true ->
  forallb isSpace sp = true -> startsWithSpace rem = false ->
  parseLinePrefix ((Text (m :: sp ++ rem) :: spans) :: rest) =
    let newWords := strippedWords rem spans rest in
    if (m =? bar)%N then ParsedMeta (joinWords 0 newWords [])
    else if (m =? slash)%N then ParsedRow RowTransliteration newWords
    else ParsedRow RowGloss newWords.
Proof.
  intros Hm Hsp Hrem.
  unfold parseLinePrefix, matchPrefix. rewrite Hm. cbv zeta.
  rewrite slice_match by assumption.
  assert (Heq : (m =? bar)%N = false -> (m =? slash)%N = false ->
                (m =? equals)%N = true).
  { intros Hbar Hslash. unfold isMarker in Hm. now rewrite Hbar, Hslash in Hm. }
  destruct rem as [| c rem], spans as [| s spans];
    cbn [length Nat.ltb Nat.leb skipn strippedWords];
    destruct (m =? bar)%N; try reflexivity;
    destruct (m =? slash)%N; try reflexivity;
    now rewrite Heq.
Qed.

Lemma parseLinePrefix_no_marker (text : JsString)
  (spans : list PhrasingContent) (rest : list Word) :
  startsWithMarker text = false ->
  parseLinePrefix ((Text text :: spans) :: rest) =
    ParsedRow RowText ((Text text :: spans) :: rest).
Proof.
  intros Hm. unfold parseLinePrefix, matchPrefix.
  destruct text as [| c text]; [reflexivity |].
  cbn in Hm. now rewrite Hm.
Qed.

(** The loop of the meta branch, once past its first word. *)
Lemma joinWords_later (ws : list Word) :
  forall (i : nat) (content : list PhrasingContent),
    0 < i ->
    joinWords i ws content =
      content ++ flat_map (fun w => Text (str " ") :: w) ws.
Proof.
  induction ws as [| w ws IH]; intros i content Hi; cbn [joinWords flat_map].
  - now rewrite app_nil_r.
  - destruct i as [| i]; [lia |].
    cbn [Nat.ltb Nat.leb]. rewrite IH by lia.
    unfold push. rewrite <- !app_assoc. reflexivity.
Qed.

Lemma spaced_cons (w : Word) (ws : list Word) :
  spaced (w :: ws) = w ++ flat_map (fun w => Text (str " ") :: w) ws.
Proof.
  revert w. induction ws as [| w' ws IH]; intros w.
  - cbn. now rewrite app_nil_r.
  - change (spaced (w :: w' :: ws))
      with (w ++ Text (str " ") :: spaced (w' :: ws)).
    now rewrite IH.
Qed.

Lemma joinWords_spaced (ws : list Word) : joinWords 0 ws [] = spaced ws.
Proof.
  destruct ws as [| w ws]; [reflexivity |].
  cbn [joinWords Nat.ltb Nat.leb app].
  now rewrite joinWords_later, spaced_cons by lia.
Qed.

Lemma spaced_length (ws : list Word) :
  length (spaced ws) = length (concat ws) + (length ws - 1).
Proof.
  induction ws as [| w ws IH]; [reflexivity |].
  destruct ws as [| w' ws].
  - cbn. rewrite app_nil_r. lia.
  - change (spaced (w :: w' :: ws))
      with (w ++ Text (str " ") :: spaced (w' :: ws)).
    cbn [concat] in *. rewrite !length_app in *. cbn [length] in *.
    rewrite IH. lia.
Qed.

(** A line is left as a text row, or it starts with a marker. *)
Lemma parseLinePrefix_cases (line : LineWords) :
  parseLinePrefix line = ParsedRow RowText line
  \/ exists (m : Char) (sp rem : JsString) (spans : list PhrasingContent)
        (rest : list Word),
        line = (Text (m :: sp ++ rem) :: spans) :: rest
        /\ isMarker m = true
        /\ forallb isSpace sp = true /\ startsWithSpace rem = false.
Proof.
  destruct line as [| [| [text | | t cs] spans] rest]; try (now left).
  destruct text as [| m text]; [now left |].
  destruct (isMarker m) eqn:Hm.
  - right. destruct (spaceRun_split text) as [sp [rem [Heq [Hsp Hrem]]]].
    exists m, sp, rem, spans, rest. now subst.
  - left. now apply parseLinePrefix_no_marker.
Qed.

Lemma strippedWords_cases (rem : JsString) (spans : list PhrasingContent)
  (rest : list Word) :
  strippedWords rem spans rest = rest
  \/ exists w : Word, w <> [] /\ strippedWords rem spans rest = w :: rest.
Proof.
  destruct rem as [| c rem]; [destruct spans as [| s spans] |]; cbn.
  - now left.
  - right. now exists (s :: spans).
  - right. now exists (Text (c :: rem) :: spans).
Qed.

(** A row keeps the words of its line: all of them, or all but the first,
    or all with the first one replaced by a word that is not empty. *)
Lemma parseLinePrefix_row_words (line : LineWords) (t : RowType) (ws : list Word) :
  parseLinePrefix line = ParsedRow t ws ->
  ws = line \/ ws = tl line
  \/ exists w : Word, w <> [] /\ ws = w :: tl line.
Proof.
  intros Hrow.
  destruct (parseLinePrefix_cases line)
    as [Htext | [m [sp [rem [spans [rest [Hline [Hm [Hsp Hrem]]]]]]]]].
  - left. congruence.
  - subst line. rewrite parseLinePrefix_marker in Hrow by assumption.
    cbv zeta in Hrow. cbn [tl].
    assert (Hws : ws = strippedWords rem spans rest).
    { destruct (m =? bar)%N; [discriminate |].
      destruct (m =? slash)%N; congruence. }
    rewrite Hws.
    destruct (strippedWords_cases rem spans rest) as [-> | [w [Hw ->]]].
    + right. now left.
    + right. right. now exists w.
Qed.

(** The classifier puts no empty word into a row. *)
Lemma parseLinePrefix_nonEmpty (line : LineWords) (t : RowType) (ws : list Word) :
  Forall (fun w => w <> []) line ->
  parseLinePrefix line = ParsedRow t ws ->
  Forall (fun w => w <> []) ws.
Proof.
  intros Hline Hrow.
  assert (Htl : Forall (fun w : Word => w <> []) (tl line))
    by (destruct line; [constructor | now inversion Hline]).
  destruct (parseLinePrefix_row_words line t ws Hrow) as [-> | [-> | [w [Hw ->]]]];
    auto.
Qed.

End Classifier.

(** C5: a line whose first word is empty, or starts with a span that is
    not text, or with a text that does not start with one of the markers,
    is a text row with its words unchanged.  When the first text is a marker
    followed by whitespace [sp] and a remainder [rem], the marker and the
    whitespace are cut off, the span is dropped when [rem] is empty and the
    word when it has no span left, and the words after the first stay; the
    marker gives the role: "|" a meta line whose content is made of these
    words, "/" a transliteration row and "=" a gloss row that hold them.
    The line made of the one text "=" is a gloss row without words. *)
Theorem parseLinePrefix_roles :
  (forall rest : list Word,
     parseLinePrefix ([] :: rest) = ParsedRow RowText ([] :: rest))
  /\ (forall (spans : list PhrasingContent) (rest : list Word),
        parseLinePrefix ((Break :: spans) :: rest) =
          ParsedRow RowText ((Break :: spans) :: rest))
  /\ (forall (t : string) (cs spans : list PhrasingContent) (rest : list Word),
        parseLinePrefix ((Inline t cs :: spans) :: rest) =
          ParsedRow RowText ((Inline t cs :: spans) :: rest))
  /\ (forall (text : JsString) (spans : list PhrasingContent)
         (rest : list Word),
        startsWithMarker text = false ->
        parseLinePrefix ((Text text :: spans) :: rest) =
          ParsedRow RowText ((Text text :: spans) :: rest))
  /\ (forall (sp rem : JsString) (spans : list PhrasingContent)
         (rest : list Word),
        forallb isSpace sp = true -> startsWithSpace rem = false ->
        parseLinePrefix ((Text (bar :: sp ++ rem) :: spans) :: rest) =
          ParsedMeta (spaced (strippedWords rem spans rest))
        /\ parseLinePrefix ((Text (slash :: sp ++ rem) :: spans) :: rest) =
             ParsedRow RowTransliteration (strippedWords rem spans rest)
        /\ parseLinePrefix ((Text (equals :: sp ++ rem) :: spans) :: rest) =
             ParsedRow RowGloss (strippedWords rem spans rest))
  /\ parseLinePrefix [[Text (str "=")]] = ParsedRow RowGloss [].
Proof.
  repeat split; try reflexivity.
  - intros text spans rest. apply parseLinePrefix_no_marker.
  - rewrite parseLinePrefix_marker by easy. cbn. now rewrite joinWords_spaced.
  - now rewrite parseLinePrefix_marker.
  - now rewrite parseLinePrefix_marker.
Qed.

(** The line "/  le" followed by a word: the marker and the two spaces are
    cut off; the line "=" followed by a word: the first word is dropped; the
    line "|Cap" followed by a word: the marker is cut off the content. *)
Lemma parseLinePrefix_roles_witness :
  parseLinePrefix [[Text (str "/  le")]; [Text (str "chien")]] =
    ParsedRow RowTransliteration [[Text (str "le")]; [Text (str "chien")]]
  /\ parseLinePrefix [[Text (str "=")]; [Text (str "dog")]] =
       ParsedRow RowGloss [[Text (str "dog")]]
  /\ parseLinePrefix [[Text (str "|Cap")]; [Text (str "tion")]] =
       ParsedMeta [Text (str "Cap"); Text (str " "); Text (str "tion")].
Proof.
  pose proof parseLinePrefix_roles as [_ [_ [_ [_ [Hmarker _]]]]].
  split; [| split].
  - exact (proj1 (proj2 (Hmarker (str "  ") (str "le") []
                           [[Text (str "chien")]] eq_refl eq_refl))).
  - exact (proj2 (proj2 (Hmarker [] [] [] [[Text (str "dog")]]
                           eq_refl eq_refl))).
  - exact (proj1 (Hmarker [] (str "Cap") [] [[Text (str "tion")]]
                    eq_refl eq_refl)).
Defined.

(** C9: the content of a meta line is the spans of the words left after
    the marker, in one sequence, with one space span between two adjacent
    words and none at either end; only a line that starts with the marker
    "|" is a meta line; and a row keeps its words as words. *)
Theorem parseLinePrefix_meta_content :
  (forall (sp rem : JsString) (spans : list PhrasingContent)
     (rest : list Word),
     forallb isSpace sp = true -> startsWithSpace rem = false ->
     parseLinePrefix ((Text (bar :: sp ++ rem) :: spans) :: rest) =
       ParsedMeta (spaced (strippedWords rem spans rest)))
  /\ (forall (line : LineWords) (content : list PhrasingContent),
        parseLinePrefix line = ParsedMeta content ->
        exists (sp rem : JsString) (spans : list PhrasingContent)
          (rest : list Word),
          line = (Text (bar :: sp ++ rem) :: spans) :: rest
          /\ forallb isSpace sp = true /\ startsWithSpace rem = false
          /\ content = spaced (strippedWords rem spans rest))
  /\ (forall ws : list Word,
        length (spaced ws) = length (concat ws) + (length ws - 1))
  /\ (forall (line : LineWords) (t : RowType) (ws : list Word),
        parseLinePrefix line = ParsedRow t ws ->
        ws = line \/ ws = tl line
        \/ exists w : Word, w <> [] /\ ws = w :: tl line).
Proof.
  split; [| split; [| split]].
  - intros sp rem spans rest Hsp Hrem.
    rewrite parseLinePrefix_marker by easy. cbn. now rewrite joinWords_spaced.
  - intros line content Hmeta.
    destruct (parseLinePrefix_cases line)
      as [Htext | [m [sp [rem [spans [rest [Hline [Hm [Hsp Hrem]]]]]]]]];
      [congruence |].
    subst line. rewrite parseLinePrefix_marker in Hmeta by assumption.
    cbv zeta in Hmeta.
    destruct (m =? bar)%N eqn:Hbar.
    + apply N.eqb_eq in Hbar. subst m.
      exists sp, rem, spans, rest. repeat split; try assumption.
      rewrite joinWords_spaced in Hmeta. congruence.
    + destruct (m =? slash)%N; discriminate.
  - exact spaced_length.
  - exact parseLinePrefix_row_words.
Qed.

(** The line "| A caption" as the extractor delivers it: three words, the
    first of them the marker alone. *)
Lemma parseLinePrefix_meta_content_witness :
  parseLinePrefix [[Text (str "|")]; [Text (str "A")]; [Text (str "caption")]] =
    ParsedMeta [Text (str "A"); Text (str " "); Text (str "caption")].
Proof.
  exact (proj1 parseLinePrefix_meta_content [] [] []
           [[Text (str "A")]; [Text (str "caption")]] eq_refl eq_refl).
Defined.

(** ** The line extractor: the two ways to break a line *)

Section Breaks.

Lemma bind_assoc {E A B C} (r : Result E A) (k : A -> Result E B)
  (k' : B -> Result E C) :
  bind (bind r k) k' = bind r (fun a => bind (k a) k').
Proof. now destruct r. Qed.

Lemma forEach_app {A S} (body : A -> S -> Result JsError S) (l1 l2 : list A) :
  forall s : S,
    forEach body (l1 ++ l2) s = (s' <- forEach body l1 s ;; forEach body l2 s').
Proof.
  induction l1 as [| x l1 IH]; intros s; [reflexivity |].
  cbn [forEach app]. rewrite bind_assoc.
  destruct (body x s) as [s1 | e]; cbn [bind]; [apply IH | reflexivity].
Qed.

(** [split] at the newlines of a text with a newline in it. *)
Lemma splitNewline_app (s1 s2 : JsString) :
  forall cur : JsString,
    splitNewline cur (s1 ++ newline :: s2) =
    splitNewline cur s1 ++ splitNewline [] s2.
Proof.
  induction s1 as [| c s1 IH]; intros cur.
  - reflexivity.
  - cbn [app splitNewline].
    destruct (c =? newline)%N; [cbn [app]; f_equal |]; apply IH.
Qed.

Lemma splitNewline_length (s : JsString) :
  forall cur : JsString, 0 < length (splitNewline cur s).
Proof.
  induction s as [| c s IH]; intros cur; cbn [splitNewline].
  - cbn. lia.
  - destruct (c =? newline)%N; [cbn; lia | apply IH].
Qed.

(** Past the first text line the index only says "not the first". *)
Lemma processTextLines_later (textLines : list JsString) :
  forall (i j : nat) (lines : Lines),
    0 < i -> 0 < j ->
    processTextLines i textLines lines = processTextLines j textLines lines.
Proof.
  induction textLines as [| t rest IH]; intros i j lines Hi Hj;
    [reflexivity |].
  cbn [processTextLines].
  apply Nat.ltb_lt in Hi as Hi'. apply Nat.ltb_lt in Hj as Hj'.
  rewrite Hi', Hj'.
  destruct (processTextLine t (pushLine lines)) as [lines2 | e]; cbn [bind];
    [apply IH; lia | reflexivity].
Qed.

Lemma processTextLines_app (l1 l2 : list JsString) :
  forall (i : nat) (lines : Lines),
    processTextLines i (l1 ++ l2) lines =
    (lines1 <- processTextLines i l1 lines ;;
     processTextLines (i + length l1) l2 lines1).
Proof.
  induction l1 as [| t l1 IH]; intros i lines.
  - cbn. now rewrite Nat.add_0_r.
  - cbn [app processTextLines length]. rewrite bind_assoc.
    destruct (processTextLine t _) as [lines2 | e]; cbn [bind];
      [| reflexivity].
    rewrite IH. now replace (S i + length l1) with (i + S (length l1)) by lia.
Qed.

(** The first text line of a node is processed on a fresh line when the
    node follows a break. *)
Lemma processTextLines_pushLine (textLines : list JsString) (i : nat)
  (lines : Lines) :
  0 < i -> textLines <> [] ->
  processTextLines i textLines lines =
  processTextLines 0 textLines (pushLine lines).
Proof.
  intros Hi Hne. destruct textLines as [| t rest]; [contradiction |].
  cbn [processTextLines]. apply Nat.ltb_lt in Hi as Hi'. rewrite Hi'.
  cbn [Nat.ltb Nat.leb].
  destruct (processTextLine t (pushLine lines)) as [lines2 | e]; cbn [bind];
    [| reflexivity].
  apply processTextLines_later; lia.
Qed.

(** A newline inside a text node acts as a break between two text nodes. *)
Lemma processTextNode_newline (s1 s2 : JsString) (lines : Lines) :
  processTextNode (s1 ++ newline :: s2) lines =
  (lines1 <- processTextNode s1 lines ;;
   lines2 <- processChild Break lines1 ;;
   processTextNode s2 lines2).
Proof.
  unfold processTextNode, split_nl. cbv zeta.
  rewrite splitNewline_app, processTextLines_app.
  destruct (processTextLines 0 (splitNewline [] s1) lines) as [lines1 | e];
    cbn [bind processChild]; [| reflexivity].
  apply processTextLines_pushLine.
  - pose proof (splitNewline_length s1 []). lia.
  - pose proof (splitNewline_length s2 []) as H.
    now destruct (splitNewline [] s2).
Qed.

Lemma processChild_newline (lines : Lines) :
  processChild (Text [newline]) lines = processChild Break lines.
Proof. reflexivity. Qed.

Lemma extractLines_same (pre mid1 mid2 post : list PhrasingContent) :
  (forall lines : Lines,
     forEach processChild mid1 lines = forEach processChild mid2 lines) ->
  extractLines (pre ++ mid1 ++ post) = extractLines (pre ++ mid2 ++ post).
Proof.
  intros Hmid. unfold extractLines.
  rewrite !(forEach_app processChild pre).
  destruct (forEach processChild pre [[[]]]) as [lines | e]; cbn [bind];
    [| reflexivity].
  now rewrite !forEach_app, Hmid.
Qed.

End Breaks.

(** C8: a break element and a newline in a text node are interchangeable
    for [extractLines]: a break gives the same lines as a text node holding
    one newline, and two text nodes with a break between them give the same
    lines as one text node holding the two texts with a newline between. *)
Theorem extractLines_break_newline :
  (forall pre post : list PhrasingContent,
     extractLines (pre ++ Break :: post) =
     extractLines (pre ++ Text [newline] :: post))
  /\ (forall (pre post : list PhrasingContent) (s1 s2 : JsString),
        extractLines (pre ++ Text s1 :: Break :: Text s2 :: post) =
        extractLines (pre ++ Text (s1 ++ newline :: s2) :: post)).
Proof.
  split.
  - intros pre post.
    apply (extractLines_same pre [Break] [Text [newline]] post).
    reflexivity.
  - intros pre post s1 s2.
    apply (extractLines_same pre [Text s1; Break; Text s2]
             [Text (s1 ++ newline :: s2)] post).
    intros lines. cbn [forEach processChild].
    rewrite processTextNode_newline. cbn [processChild].
    destruct (processTextNode s1 lines) as [lines1 | e]; cbn [bind];
      [| reflexivity].
    now destruct (processTextNode s2 (pushLine lines1)).
Qed.

(** ** The line extractor: what it returns *)

Section Extractor.

Lemma atLast_snoc {A} (f : A -> Result JsError A) (l : list A) (x : A) :
  atLast f (l ++ [x]) = (x' <- f x ;; Ok (l ++ [x'])).
Proof.
  induction l as [| a l IH]; [reflexivity |].
  cbn [app]. destruct (l ++ [x]) as [| y ys] eqn:Hl.
  - now destruct l.
  - change (atLast f (a :: y :: ys))
      with (xs' <- atLast f (y :: ys) ;; Ok (a :: xs')).
    rewrite IH. now destruct (f x).
Qed.

Lemma spansOf_snoc (ls : Lines) (ws : LineWords) (w : Word) :
  spansOf (ls ++ [ws ++ [w]]) = spansOf ls ++ concat ws ++ w.
Proof.
  unfold spansOf. rewrite !concat_app. cbn [concat].
  rewrite !app_nil_r, concat_app. cbn [concat].
  now rewrite app_nil_r.
Qed.

Lemma Appends_pushWord : Appends pushWord [].
Proof.
  intros lines [ls [ws [w ->]]].
  exists (ls ++ [(ws ++ [w]) ++ [[]]]). split; [| split].
  - unfold pushWord. now rewrite atLast_snoc.
  - now exists ls, (ws ++ [w]), [].
  - rewrite !spansOf_snoc, concat_app. cbn. now rewrite !app_nil_r.
Qed.

Lemma Appends_pushNode (node : PhrasingContent) :
  Appends (pushNode node) [node].
Proof.
  intros lines [ls [ws [w ->]]].
  exists (ls ++ [ws ++ [w ++ [node]]]). split; [| split].
  - unfold pushNode. now rewrite !atLast_snoc.
  - now exists ls, ws, (w ++ [node]).
  - rewrite !spansOf_snoc. now rewrite <- !app_assoc.
Qed.

Lemma Open_pushLine (lines : Lines) :
  Open (pushLine lines) /\ spansOf (pushLine lines) = spansOf lines.
Proof.
  split.
  - now exists lines, [], [].
  - unfold pushLine, push, spansOf. rewrite !concat_app. cbn.
    now rewrite app_nil_r.
Qed.

Lemma Appends_skip : Appends (fun lines => Ok lines) [].
Proof.
  intros lines Hopen. exists lines. now rewrite app_nil_r.
Qed.

Lemma Appends_bind (step1 step2 : Lines -> Result JsError Lines)
  (added1 added2 : list PhrasingContent) :
  Appends step1 added1 -> Appends step2 added2 ->
  Appends (fun lines => lines1 <- step1 lines ;; step2 lines1)
    (added1 ++ added2).
Proof.
  intros H1 H2 lines Hopen.
  destruct (H1 lines Hopen) as [lines1 [Heq1 [Hopen1 Hs1]]].
  destruct (H2 lines1 Hopen1) as [lines2 [Heq2 [Hopen2 Hs2]]].
  exists lines2. rewrite Heq1. cbn [bind].
  repeat split; try assumption.
  now rewrite Hs2, Hs1, app_assoc.
Qed.

Lemma Appends_forEach {A} (body : A -> Lines -> Result JsError Lines)
  (added : A -> list PhrasingContent) :
  (forall x : A, Appends (body x) (added x)) ->
  forall l : list A, Appends (forEach body l) (flat_map added l).
Proof.
  intros Hbody. induction l as [| x l IH]; cbn [forEach flat_map].
  - apply Appends_skip.
  - apply (Appends_bind (body x) (forEach body l)); auto.
Qed.

Lemma Appends_processToken (token : JsString) :
  Appends (processToken token) (tokenSpan token).
Proof.
  unfold processToken, tokenSpan.
  destruct token as [| c token]; [apply Appends_skip |].
  destruct (allSpace (c :: token));
    [apply Appends_pushWord | apply Appends_pushNode].
Qed.

Lemma Appends_processTextLine (text : JsString) :
  Appends (processTextLine text) (flat_map tokenSpan (split_ws text)).
Proof. apply Appends_forEach, Appends_processToken. Qed.

Lemma Appends_processTextLines (textLines : list JsString) :
  forall i : nat,
    Appends (processTextLines i textLines)
      (flat_map (fun t => flat_map tokenSpan (split_ws t)) textLines).
Proof.
  induction textLines as [| t rest IH]; intros i;
    cbn [processTextLines flat_map].
  - apply Appends_skip.
  - intros lines Hopen.
    assert (Hopen1 : Open (if 0 <? i then pushLine lines else lines))
      by (destruct (0 <? i); [apply Open_pushLine | assumption]).
    assert (Hs1 : spansOf (if 0 <? i then pushLine lines else lines) =
                  spansOf lines)
      by (destruct (0 <? i); [apply Open_pushLine | reflexivity]).
    destruct (Appends_bind _ _ _ _ (Appends_processTextLine t) (IH (S i))
                _ Hopen1) as [lines' [Heq [Hopen' Hs']]].
    exists lines'. cbv zeta. rewrite <- Hs1. now repeat split.
Qed.

Lemma forallb_rev {A} (f : A -> bool) (l : list A) :
  forallb f (rev l) = forallb f l.
Proof.
  induction l as [| x l IH]; [reflexivity |].
  cbn [rev forallb]. rewrite forallb_app, IH. cbn.
  now rewrite andb_true_r, andb_comm.
Qed.

Lemma allSpace_rev (cur : JsString) :
  cur <> [] -> allSpace (rev cur) = forallb isSpace cur.
Proof.
  intros Hne. unfold allSpace.
  destruct (rev cur) as [| y ys] eqn:Hrev.
  - apply (f_equal (@rev Char)) in Hrev. rewrite rev_involutive in Hrev.
    contradiction.
  - now rewrite <- Hrev, forallb_rev.
Qed.

Lemma tokenSpan_rev (cur : JsString) :
  cur <> [] ->
  tokenSpan (rev cur) = if forallb isSpace cur then [] else [Text (rev cur)].
Proof.
  intros Hne. unfold tokenSpan. rewrite allSpace_rev by assumption.
  destruct (rev cur) as [| y ys] eqn:Hrev; [| reflexivity].
  apply (f_equal (@rev Char)) in Hrev. rewrite rev_involutive in Hrev.
  contradiction.
Qed.

(** A piece between two runs of whitespace holds no whitespace. *)
Lemma tokenSpan_piece (cur : JsString) :
  forallb (fun c => negb (isSpace c)) cur = true ->
  tokenSpan (rev cur) = map Text (flush cur).
Proof.
  intros Hcur. destruct cur as [| c cur]; [reflexivity |].
  rewrite tokenSpan_rev by discriminate.
  cbn [forallb flush map] in *. apply andb_prop in Hcur.
  destruct Hcur as [Hc _]. apply negb_true_iff in Hc. now rewrite Hc.
Qed.

Lemma tokenSpan_run (cur : JsString) :
  cur <> [] -> forallb isSpace cur = true -> tokenSpan (rev cur) = [].
Proof.
  intros Hne Hcur. rewrite tokenSpan_rev by assumption. now rewrite Hcur.
Qed.

(** The tokens of [processTextLine] that are kept are the runs of the
    text. *)
Lemma splitSpaces_runs (s : JsString) :
  forall cur : JsString,
    (forallb (fun c => negb (isSpace c)) cur = true ->
     flat_map tokenSpan (splitSpaces InPiece cur s) =
       map Text (textRuns cur s))
    /\ (cur <> [] -> forallb isSpace cur = true ->
        flat_map tokenSpan (splitSpaces InRun cur s) =
          map Text (textRuns [] s)).
Proof.
  induction s as [| c s IH]; intros cur; split.
  - intros Hcur. cbn [splitSpaces flat_map textRuns].
    now rewrite app_nil_r, tokenSpan_piece.
  - intros Hne Hcur. cbn [splitSpaces flat_map textRuns].
    now rewrite tokenSpan_run.
  - intros Hcur. cbn [splitSpaces textRuns].
    destruct (isSpace c) eqn:Hc.
    + cbn [flat_map]. rewrite tokenSpan_piece, map_app by assumption.
      f_equal. apply (IH [c]); [discriminate |]. cbn. now rewrite Hc.
    + apply (IH (c :: cur)). cbn. now rewrite Hc.
  - intros Hne Hcur. cbn [splitSpaces textRuns].
    destruct (isSpace c) eqn:Hc.
    + cbn [flush app]. apply (IH (c :: cur)); [discriminate |].
      cbn. now rewrite Hc.
    + cbn [flat_map]. rewrite tokenSpan_run by assumption. cbn [app].
      apply (IH [c]). cbn. now rewrite Hc.
Qed.

Lemma split_ws_runs (text : JsString) :
  flat_map tokenSpan (split_ws text) = map Text (textRuns [] text).
Proof. now apply (splitSpaces_runs text []). Qed.

Lemma textRuns_app_space (a b : JsString) (c : Char) :
  isSpace c = true ->
  forall cur : JsString,
    textRuns cur (a ++ c :: b) = textRuns cur a ++ textRuns [] b.
Proof.
  intros Hc. induction a as [| x a IH]; intros cur; cbn [app textRuns].
  - now rewrite Hc.
  - destruct (isSpace x); [| apply IH].
    now rewrite IH, app_assoc.
Qed.

(** The runs of a text, line by line, are the runs of the whole text: a
    newline is whitespace. *)
Lemma splitNewline_runs (s : JsString) :
  forall cur : JsString,
    flat_map (fun t => textRuns [] t) (splitNewline cur s) =
      textRuns [] (rev cur ++ s).
Proof.
  induction s as [| c s IH]; intros cur; cbn [splitNewline].
  - cbn. now rewrite !app_nil_r.
  - destruct (N.eqb_spec c newline) as [-> | Hc].
    + cbn [flat_map]. rewrite IH. cbn [rev app].
      now rewrite textRuns_app_space.
    + rewrite IH. cbn [rev]. now rewrite <- app_assoc.
Qed.

Lemma flat_map_map_Text (f : JsString -> list JsString) (l : list JsString) :
  flat_map (fun t => map Text (f t)) l = map Text (flat_map f l).
Proof.
  induction l as [| t l IH]; [reflexivity |].
  cbn [flat_map]. now rewrite map_app, IH.
Qed.

Lemma Appends_processChild (child : PhrasingContent) :
  Appends (processChild child) (childSpans child).
Proof.
  destruct child as [value | | t cs]; cbn [processChild childSpans].
  - unfold processTextNode. cbv zeta.
    replace (map Text (textRuns [] value))
      with (flat_map (fun t => flat_map tokenSpan (split_ws t))
              (split_nl value)).
    + apply Appends_processTextLines.
    + rewrite (flat_map_ext _ (fun t => map Text (textRuns [] t)))
        by (intros t; apply split_ws_runs).
      rewrite flat_map_map_Text. unfold split_nl.
      now rewrite splitNewline_runs.
  - intros lines Hopen. exists (pushLine lines).
    destruct (Open_pushLine lines) as [Hopen' Hs].
    rewrite app_nil_r. now repeat split.
  - apply Appends_pushNode.
Qed.

Lemma concat_nonEmpty {A} (l : list (list A)) :
  concat (filter nonEmpty l) = concat l.
Proof.
  induction l as [| x l IH]; [reflexivity |].
  destruct x; cbn [filter nonEmpty concat]; now rewrite IH.
Qed.

Lemma spansOf_filtered (lines : Lines) :
  spansOf (filter nonEmpty (map (fun line => filter nonEmpty line) lines)) =
  spansOf lines.
Proof.
  unfold spansOf. rewrite concat_nonEmpty.
  induction lines as [| line lines IH]; [reflexivity |].
  cbn [map concat]. now rewrite !concat_app, concat_nonEmpty, IH.
Qed.

Lemma nonEmpty_true {A} (l : list A) : nonEmpty l = true <-> l <> [].
Proof. destruct l; cbn; split; congruence. Qed.

Lemma filtered_nonEmpty (lines : Lines) :
  Forall (fun line : LineWords => line <> [] /\ Forall (fun w => w <> []) line)
    (filter nonEmpty (map (fun line => filter nonEmpty line) lines)).
Proof.
  apply Forall_forall. intros line Hin.
  apply filter_In in Hin. destruct Hin as [Hin Hne].
  apply in_map_iff in Hin. destruct Hin as [line0 [<- _]].
  split; [now apply nonEmpty_true |].
  apply Forall_forall. intros w Hw.
  apply filter_In in Hw. now apply nonEmpty_true.
Qed.

(** [extractLines] returns, and what it returns. *)
Lemma extractLines_ok (children : list PhrasingContent) :
  exists lines : list LineWords,
    extractLines children = Ok lines
    /\ Forall (fun line : LineWords =>
                 line <> [] /\ Forall (fun w => w <> []) line) lines
    /\ spansOf lines = flat_map childSpans children.
Proof.
  assert (Hstart : Open [[[]]]) by now exists [], [], [].
  destruct (Appends_forEach processChild childSpans Appends_processChild
              children _ Hstart) as [raw [Heq [_ Hs]]].
  unfold extractLines. rewrite Heq. cbn [bind].
  eexists. split; [reflexivity |]. split.
  - apply filtered_nonEmpty.
  - now rewrite spansOf_filtered, Hs.
Qed.

End Extractor.

(** C7: [extractLines] returns for every paragraph; each line returned has
    at least one word and each word at least one span; the spans of the
    lines, read in order, are the source's spans in source order (each text
    cut into its runs without whitespace, each other node whole); and
    [parseLinePrefix] puts no empty word into the row of such a line. *)
Theorem extractLines_lines (children : list PhrasingContent) :
  exists lines : list LineWords,
    extractLines children = Ok lines
    /\ Forall (fun line : LineWords =>
                 line <> [] /\ Forall (fun w => w <> []) line) lines
    /\ spansOf lines = flat_map childSpans children
    /\ Forall (fun line : LineWords => rowWordsNonEmpty (parseLinePrefix line))
         lines.
Proof.
  destruct (extractLines_ok children) as [lines [Heq [Hne Hs]]].
  exists lines. repeat split; try assumption.
  apply Forall_forall. intros line Hin.
  rewrite Forall_forall in Hne. destruct (Hne line Hin) as [_ Hwords].
  unfold rowWordsNonEmpty.
  destruct (parseLinePrefix line) as [content | t ws] eqn:Hparsed; [exact I |].
  now apply (parseLinePrefix_nonEmpty line t ws).
Qed.

(** ** The transformer *)

Section Transformer.

(** The traversal of the children of a node is [visitAll]. *)
Lemma visit_ListNode ordered spread data children file :
  visit (ListNode ordered spread data children) file =
    match visitAll children file with
    | (children', file', thrown) =>
        (ListNode ordered spread data children', file', thrown)
    end.
Proof. reflexivity. Qed.

Lemma visit_ListItem spread data children file :
  visit (ListItem spread data children) file =
    match visitAll children file with
    | (children', file', thrown) =>
        (ListItem spread data children', file', thrown)
    end.
Proof. reflexivity. Qed.

Lemma visit_Block t children file :
  visit (Block t children) file =
    match visitAll children file with
    | (children', file', thrown) => (Block t children', file', thrown)
    end.
Proof. reflexivity. Qed.

Lemma visit_ContainerDirective name data children file :
  visit (ContainerDirective name data children) file =
    if (name =? "gloss")%string
    then visitor (ContainerDirective name data children) file
    else
      match visitAll children file with
      | (children', file', thrown) =>
          (ContainerDirective name data children', file', thrown)
      end.
Proof. reflexivity. Qed.

Lemma visitAll_cons n rest file :
  visitAll (n :: rest) file =
    match visit n file with
    | (n', file', Some thrown) => (n' :: rest, file', Some thrown)
    | (n', file', None) =>
        match visitAll rest file' with
        | (rest', file'', thrown) => (n' :: rest', file'', thrown)
        end
    end.
Proof. reflexivity. Qed.

Lemma visitAll_app (l1 l2 : list Node) :
  forall file : VFile,
    visitAll (l1 ++ l2) file =
      match visitAll l1 file with
      | (l1', file', Some thrown) => (l1' ++ l2, file', Some thrown)
      | (l1', file', None) =>
          match visitAll l2 file' with
          | (l2', file'', thrown) => (l1' ++ l2', file'', thrown)
          end
      end.
Proof.
  induction l1 as [| n l1 IH]; intros file.
  - cbn [app visitAll]. now destruct (visitAll l2 file) as [[l2' file''] e].
  - cbn [app]. rewrite !visitAll_cons.
    destruct (visit n file) as [[n' file'] [thrown |]]; [reflexivity |].
    rewrite IH.
    destruct (visitAll l1 file') as [[l1' file''] [thrown |]];
      [reflexivity |].
    now destruct (visitAll l2 file'') as [[l2' file3] e].
Qed.

(** A list of nodes that the traversal leaves alone. *)
Lemma visitAll_fixed (nodes : list Node) (file : VFile) :
  Forall (fun n => forall file, visit n file = (n, file, None)) nodes ->
  visitAll nodes file = (nodes, file, None).
Proof.
  induction 1 as [| n nodes Hn _ IH]; [reflexivity |].
  now rewrite visitAll_cons, Hn, IH.
Qed.

Lemma visit_createCell (w : ColumnWord) (file : VFile) :
  visit (createCell w) file = (createCell w, file, None).
Proof.
  unfold createCell. rewrite visit_ListItem.
  destruct (word w) as [ws |]; [destruct (0 <? length ws) |]; reflexivity.
Qed.

Lemma visit_createColumn (ws : list ColumnWord) (file : VFile) :
  visit (createColumn ws) file = (createColumn ws, file, None).
Proof.
  unfold createColumn.
  rewrite visit_ListItem, visitAll_cons, visit_ListNode, visitAll_fixed.
  - reflexivity.
  - apply Forall_forall. intros n Hin.
    apply in_map_iff in Hin. destruct Hin as [w [<- _]].
    intros file'. apply visit_createCell.
Qed.

(** The children the visitor installs hold no container directive: the
    traversal goes through them without calling the visitor. *)
Lemma visitAll_figureChildren (parseResult : Gloss) (file : VFile) :
  visitAll (figureChildren parseResult) file =
    (figureChildren parseResult, file, None).
Proof.
  apply visitAll_fixed. unfold figureChildren.
  apply Forall_app; split; [| apply Forall_app; split].
  - destruct (header parseResult); repeat constructor.
  - destruct (0 <? length (buildColumns (rows parseResult)));
      repeat constructor.
    intros file'. unfold createWordGrid.
    rewrite visit_ListNode, visitAll_fixed; [reflexivity |].
    apply Forall_forall. intros n Hin. unfold buildColumns in Hin.
    apply in_map_iff in Hin. destruct Hin as [col [<- _]].
    intros file''. apply visit_createColumn.
  - destruct (footer parseResult); repeat constructor.
Qed.

(** [parseGlossNode] has one way to fail. *)
Lemma collectLines_ok (children : list Node) :
  forall lines : list Line,
    exists lines' : list Line,
      forEach collectChild children lines = Ok lines'.
Proof.
  induction children as [| child children IH]; intros lines.
  - now exists lines.
  - cbn [forEach].
    assert (Hchild : exists lines1, collectChild child lines = Ok lines1).
    { destruct child; try (now exists lines). cbn [collectChild].
      destruct (extractLines_ok children0) as [extracted [-> _]].
      cbn [bind]. clear. revert lines.
      induction extracted as [| line extracted IHe]; intros lines.
      - now exists lines.
      - cbn [forEach bind]. apply IHe. }
    destruct Hchild as [lines1 ->]. cbn [bind]. apply IH.
Qed.

Lemma parseGlossNode_error (children : list Node) (e : JsError) :
  parseGlossNode children = Throw e -> e = Error placementMessage.
Proof.
  unfold parseGlossNode, collectLines.
  destruct (collectLines_ok children []) as [lines ->]. cbn [bind].
  rewrite assembleLines_placed.
  destruct (interiorMeta lines); congruence.
Qed.

Lemma visitor_throw (data : option Data) (children : list Node)
  (file : VFile) (e : JsError) :
  parseGlossNode children = Throw e ->
  let node := ContainerDirective "gloss" data children in
  let thrown := {| reason := placementMessage; place := node; fatal := true |} in
  visitor node file = (node, file ++ [thrown], Some thrown).
Proof.
  intros He. pose proof (parseGlossNode_error children e He) as ->.
  cbn [visitor String.eqb Ascii.eqb Bool.eqb negb]. now rewrite He.
Qed.

(** Induction on a node with the children of the node at hand. *)
Lemma Node_children_ind (P : Node -> Prop) :
  (forall data children, P (Paragraph data children)) ->
  (forall ordered spread data children,
     Forall P children -> P (ListNode ordered spread data children)) ->
  (forall spread data children,
     Forall P children -> P (ListItem spread data children)) ->
  (forall name data children,
     Forall P children -> P (ContainerDirective name data children)) ->
  (forall t children, Forall P children -> P (Block t children)) ->
  forall n : Node, P n.
Proof.
  intros Hpar Hlist Hitem Hdir Hblock.
  fix IH 1. intros n.
  destruct n as [data children | ordered spread data children
                | spread data children | name data children | t children].
  - apply Hpar.
  - apply Hlist.
    induction children as [| x children IHc]; constructor;
      [apply IH | exact IHc].
  - apply Hitem.
    induction children as [| x children IHc]; constructor;
      [apply IH | exact IHc].
  - apply Hdir.
    induction children as [| x children IHc]; constructor;
      [apply IH | exact IHc].
  - apply Hblock.
    induction children as [| x children IHc]; constructor;
      [apply IH | exact IHc].
Qed.

Lemma visitAll_FailsFatally (nodes : list Node) :
  Forall (fun n => forall file, FailsFatally file (visit n file)) nodes ->
  forall file : VFile, FailsFatally file (visitAll nodes file).
Proof.
  induction 1 as [| n nodes Hn _ IH]; intros file; [reflexivity |].
  rewrite visitAll_cons. specialize (Hn file).
  destruct (visit n file) as [[n' file'] [thrown |]]; [exact Hn |].
  cbn in Hn. subst file'. specialize (IH file).
  now destruct (visitAll nodes file) as [[rest' file''] thrown].
Qed.

Lemma visit_FailsFatally (n : Node) :
  forall file : VFile, FailsFatally file (visit n file).
Proof.
  induction n as [data children | ordered spread data children IH
                 | spread data children IH | name data children IH
                 | t children IH] using Node_children_ind; intros file.
  - reflexivity.
  - rewrite visit_ListNode.
    pose proof (visitAll_FailsFatally children IH file) as H.
    now destruct (visitAll children file) as [[children' file'] thrown].
  - rewrite visit_ListItem.
    pose proof (visitAll_FailsFatally children IH file) as H.
    now destruct (visitAll children file) as [[children' file'] thrown].
  - rewrite visit_ContainerDirective.
    destruct (String.eqb_spec name "gloss") as [-> | Hname].
    + destruct (parseGlossNode children) as [g | e] eqn:Hparse.
      * cbn [visitor String.eqb Ascii.eqb Bool.eqb negb]. now rewrite Hparse.
      * rewrite (visitor_throw data children file e Hparse). now cbn.
    + pose proof (visitAll_FailsFatally children IH file) as H.
      now destruct (visitAll children file) as [[children' file'] thrown].
  - rewrite visit_Block.
    pose proof (visitAll_FailsFatally children IH file) as H.
    now destruct (visitAll children file) as [[children' file'] thrown].
Qed.

Lemma remarkGloss_FailsFatally (tree : list Node) (file : VFile) :
  FailsFatally file (remarkGloss tree file).
Proof.
  apply visitAll_FailsFatally, Forall_forall.
  intros n _. apply visit_FailsFatally.
Qed.

(** Below a node that is neither a paragraph nor a gloss block the
    traversal is the traversal of the children. *)
Lemma visit_descend (node : Node) (file : VFile) :
  isParagraph node = false -> isGlossBlock node = false ->
  visit node file =
    match visitAll (childrenOf node) file with
    | (children', file', thrown) => (withChildren node children', file', thrown)
    end.
Proof.
  destruct node as [data children | ordered spread data children
                   | spread data children | name data children | t children];
    cbn [isParagraph isGlossBlock childrenOf withChildren];
    intros Hpar Hgloss; try discriminate; try reflexivity.
  now rewrite visit_ContainerDirective, Hgloss.
Qed.

Lemma visit_None_file (n n' : Node) (file file' : VFile) :
  visit n file = (n', file', None) -> file' = file.
Proof.
  intros Hrun. pose proof (visit_FailsFatally n file) as H.
  now rewrite Hrun in H.
Qed.

(** A traversal of a list that stops, stops in one of the nodes: the nodes
    before it were traversed to their end, the nodes after it were not
    reached. *)
Lemma visitAll_throw_split (nodes : list Node) :
  forall (file file' : VFile) (nodes' : list Node) (thrown : VFileMessage),
    visitAll nodes file = (nodes', file', Some thrown) ->
    exists (before before' : list Node) (c c' : Node) (after : list Node),
      nodes = before ++ c :: after
      /\ visitAll before file = (before', file, None)
      /\ visit c file = (c', file', Some thrown)
      /\ nodes' = before' ++ c' :: after.
Proof.
  induction nodes as [| n rest IH]; intros file file' nodes' thrown Hrun;
    [discriminate |].
  rewrite visitAll_cons in Hrun.
  destruct (visit n file) as [[n' file1] [thrown1 |]] eqn:Hn.
  - injection Hrun as <- <- <-.
    now exists [], [], n, n', rest.
  - apply visit_None_file in Hn as Hfile. subst file1.
    destruct (visitAll rest file) as [[rest' file2] thrown2] eqn:Hrest.
    injection Hrun as <- <- ->.
    destruct (IH file file2 rest' thrown Hrest)
      as [before [before' [c [c' [after [-> [Hbefore [Hc ->]]]]]]]].
    exists (n :: before), (n' :: before'), c, c', after.
    repeat split; try assumption.
    now rewrite visitAll_cons, Hn, Hbefore.
Qed.

Lemma visitAll_stop (before before' after : list Node) (c c' : Node)
  (file file' : VFile) (thrown : VFileMessage) :
  visitAll before file = (before', file, None) ->
  visit c file = (c', file', Some thrown) ->
  visitAll (before ++ c :: after) file =
    (before' ++ c' :: after, file', Some thrown).
Proof.
  intros Hbefore Hc. now rewrite visitAll_app, Hbefore, visitAll_cons, Hc.
Qed.

(** Where [Stops] says the traversal stops, it does. *)
Lemma Stops_visit (file : VFile) (n n' : Node) (thrown : VFileMessage) :
  Stops file n n' thrown ->
  visit n file = (n', file ++ [thrown], Some thrown).
Proof.
  induction 1 as [data children e Hparse
                 | node before before' after c c' thrown
                     Hpar Hgloss Hchildren Hbefore _ IH].
  - rewrite visit_ContainerDirective. cbn [String.eqb Ascii.eqb Bool.eqb].
    exact (visitor_throw data children file e Hparse).
  - rewrite (visit_descend node file Hpar Hgloss), Hchildren.
    now rewrite (visitAll_stop before before' after c c' file
                   (file ++ [thrown]) thrown Hbefore IH).
Qed.

(** A traversal that stops below a node, stops as [Stops] says if it does
    so in the children. *)
Lemma descend_Stops (node : Node) :
  isParagraph node = false -> isGlossBlock node = false ->
  Forall (fun c =>
            forall (file file' : VFile) (c' : Node) (thrown : VFileMessage),
              visit c file = (c', file', Some thrown) ->
              Stops file c c' thrown /\ file' = file ++ [thrown])
    (childrenOf node) ->
  forall (file file' : VFile) (n' : Node) (thrown : VFileMessage),
    visit node file = (n', file', Some thrown) ->
    Stops file node n' thrown /\ file' = file ++ [thrown].
Proof.
  intros Hpar Hgloss IH file file' n' thrown Hrun.
  rewrite (visit_descend node file Hpar Hgloss) in Hrun.
  destruct (visitAll (childrenOf node) file)
    as [[children' file1] thrown1] eqn:Hall.
  injection Hrun as <- <- ->.
  destruct (visitAll_throw_split (childrenOf node) file file1 children'
              thrown Hall)
    as [before [before' [c [c' [after [Hch [Hbefore [Hc ->]]]]]]]].
  rewrite Forall_forall in IH.
  assert (Hin : In c (childrenOf node)) by (rewrite Hch; apply in_elt).
  destruct (IH c Hin file file1 c' thrown Hc) as [Hstops ->].
  split; [| reflexivity].
  exact (Stops_below file node before before' after c c' thrown
           Hpar Hgloss Hch Hbefore Hstops).
Qed.

(** A traversal that stops, stops as [Stops] says. *)
Lemma visit_Stops (n : Node) :
  forall (file file' : VFile) (n' : Node) (thrown : VFileMessage),
    visit n file = (n', file', Some thrown) ->
    Stops file n n' thrown /\ file' = file ++ [thrown].
Proof.
  induction n as [data children | ordered spread data children IH
                 | spread data children IH | name data children IH
                 | t children IH] using Node_children_ind.
  - discriminate.
  - now apply descend_Stops.
  - now apply descend_Stops.
  - destruct (String.eqb_spec name "gloss") as [-> | Hname].
    + intros file file' n' thrown Hrun.
      rewrite visit_ContainerDirective in Hrun.
      cbn [String.eqb Ascii.eqb Bool.eqb] in Hrun.
      destruct (parseGlossNode children) as [g | e] eqn:Hparse.
      * cbn [visitor String.eqb Ascii.eqb Bool.eqb negb] in Hrun.
        rewrite Hparse in Hrun. discriminate.
      * rewrite (visitor_throw data children file e Hparse) in Hrun.
        injection Hrun as <- <- <-.
        split; [| reflexivity]. now apply (Stops_block file data children e).
    + apply descend_Stops; [reflexivity | | exact IH].
      now apply String.eqb_neq.
  - now apply descend_Stops.
Qed.

End Transformer.

(** C1, as the code has it: a gloss block with a meta line at an interior
    position makes [remarkGloss] throw the message of [file.fail], whose
    [fatal] is true, and the traversal stops at that block: the blocks
    before it are rebuilt, the block and every node after it are left as
    they were.  Whenever [remarkGloss] throws, it throws such a fatal
    message and has added it to the file.  The third part gives the tree
    [remarkGloss] leaves when it throws, for a failing block at any depth:
    it throws exactly when the traversal stops in one of the top-level
    nodes as [Stops] says, the nodes before that one traversed to their
    end and the nodes after it left as they were. *)
Theorem remarkGloss_failure_fatal :
  (forall (tree tree' : list Node) (file file' : VFile) (thrown : VFileMessage),
     remarkGloss tree file = (tree', file', Some thrown) ->
     fatal thrown = true /\ reason thrown = placementMessage
     /\ file' = file ++ [thrown])
  /\ (forall (before before' after : list Node) (data : option Data)
        (children : list Node) (file : VFile) (e : JsError),
        remarkGloss before file = (before', file, None) ->
        parseGlossNode children = Throw e ->
        remarkGloss (before ++ ContainerDirective "gloss" data children :: after)
          file =
          (before' ++ ContainerDirective "gloss" data children :: after,
           file ++ [{| reason := placementMessage;
                       place := ContainerDirective "gloss" data children;
                       fatal := true |}],
           Some {| reason := placementMessage;
                   place := ContainerDirective "gloss" data children;
                   fatal := true |}))
  /\ (forall (tree tree' : list Node) (file file' : VFile)
        (thrown : VFileMessage),
        remarkGloss tree file = (tree', file', Some thrown) <->
        exists (before before' : list Node) (c c' : Node) (after : list Node),
          tree = before ++ c :: after
          /\ remarkGloss before file = (before', file, None)
          /\ Stops file c c' thrown
          /\ tree' = before' ++ c' :: after
          /\ file' = file ++ [thrown]).
Proof.
  split; [| split].
  - intros tree tree' file file' thrown Hrun.
    pose proof (remarkGloss_FailsFatally tree file) as H.
    now rewrite Hrun in H.
  - intros before before' after data children file e Hbefore Hparse.
    unfold remarkGloss in *.
    rewrite visitAll_app, Hbefore, visitAll_cons, visit_ContainerDirective.
    cbn [String.eqb Ascii.eqb Bool.eqb].
    now rewrite (visitor_throw data children file e Hparse).
  - intros tree tree' file file' thrown. unfold remarkGloss. split.
    + intros Hrun.
      destruct (visitAll_throw_split tree file file' tree' thrown Hrun)
        as [before [before' [c [c' [after [Htree [Hbefore [Hc Htree']]]]]]]].
      destruct (visit_Stops c file file' c' thrown Hc) as [Hstops Hfile].
      now exists before, before', c, c', after.
    + intros [before [before' [c [c' [after
                [-> [Hbefore [Hstops [-> ->]]]]]]]]].
      apply visitAll_stop; [exact Hbefore |].
      now apply Stops_visit.
Qed.

(** Three gloss blocks, the second with a meta line between two rows: the
    first block is rebuilt, the second and the third are left as they were
    and the fatal message is thrown.  The same three blocks inside a block
    quote, with a fourth block after the quote: the same again, and the
    fourth block is left as it was too. *)
Lemma remarkGloss_failure_fatal_witness :
  let good := ContainerDirective "gloss" None
                [Paragraph None [Text (str "The dog")]] in
  let bad := ContainerDirective "gloss" None
               [Paragraph None
                  [Text (str "The dog"); Break; Text (str "| misplaced");
                   Break; Text (str "= a")]] in
  let built := ContainerDirective "gloss" (Some figureData)
                 (figureChildren
                    {| header := None;
                       rows := [{| type := RowText;
                                   words := [[Text (str "The")];
                                             [Text (str "dog")]] |}];
                       footer := None |}) in
  let thrown := {| reason := placementMessage; place := bad; fatal := true |} in
  remarkGloss [good; bad; good] [] = ([built; bad; good], [thrown], Some thrown)
  /\ remarkGloss [Block "blockquote" [good; bad; good]; good] [] =
       ([Block "blockquote" [built; bad; good]; good], [thrown], Some thrown).
Proof.
  intros good bad built thrown. split.
  - exact (proj1 (proj2 remarkGloss_failure_fatal) [good] [built] [good] None
             [Paragraph None
                [Text (str "The dog"); Break; Text (str "| misplaced");
                 Break; Text (str "= a")]]
             [] (Error placementMessage) eq_refl eq_refl).
  - apply (proj2 (proj2 remarkGloss_failure_fatal)).
    exists [], [], (Block "blockquote" [good; bad; good]),
      (Block "blockquote" [built; bad; good]), [good].
    split; [reflexivity |]. split; [reflexivity |]. split.
    + apply (Stops_below [] (Block "blockquote" [good; bad; good])
               [good] [built] [good] bad bad thrown);
        try reflexivity.
      apply (Stops_block [] None
               [Paragraph None
                  [Text (str "The dog"); Break; Text (str "| misplaced");
                   Break; Text (str "= a")]]
               (Error placementMessage)).
      reflexivity.
    + split; reflexivity.
Defined.

(** C1, as the claim has it, fails: after a block with a misplaced meta
    line the exception thrown is fatal and the next gloss block, which
    [remarkGloss] rebuilds when it stands alone, is left as it was. *)
Lemma remarkGloss_failure_not_isolated :
  let good := ContainerDirective "gloss" None
                [Paragraph None [Text (str "The dog")]] in
  let bad := ContainerDirective "gloss" None
               [Paragraph None
                  [Text (str "The dog"); Break; Text (str "| misplaced");
                   Break; Text (str "= a")]] in
  let built := ContainerDirective "gloss" (Some figureData)
                 (figureChildren
                    {| header := None;
                       rows := [{| type := RowText;
                                   words := [[Text (str "The")];
                                             [Text (str "dog")]] |}];
                       footer := None |}) in
  let thrown := {| reason := placementMessage; place := bad; fatal := true |} in
  remarkGloss [good] [] = ([built], [], None)
  /\ remarkGloss [bad; good] [] = ([bad; good], [thrown], Some thrown)
  /\ fatal thrown = true
  /\ built <> good.
Proof.
  cbv zeta. repeat split; try reflexivity. discriminate.
Qed.

(** C6, as the code has it: a meta line at an interior position, whichever
    it is, makes the assembly fail with the one placement text, which holds
    no index; [parseGlossNode] fails in no other way; and the visitor hands
    the text to [file.fail] with the gloss block, the container directive,
    as the place. *)
Theorem placement_error_on_block :
  (forall lines : list Line,
     interiorMeta lines = true ->
     assembleLines lines = Throw (Error placementMessage))
  /\ (forall (children : list Node) (e : JsError),
        parseGlossNode children = Throw e -> e = Error placementMessage)
  /\ (forall (data : option Data) (children : list Node) (file : VFile)
        (e : JsError),
        parseGlossNode children = Throw e ->
        visitor (ContainerDirective "gloss" data children) file =
          (ContainerDirective "gloss" data children,
           file ++ [{| reason := placementMessage;
                       place := ContainerDirective "gloss" data children;
                       fatal := true |}],
           Some {| reason := placementMessage;
                   place := ContainerDirective "gloss" data children;
                   fatal := true |})).
Proof.
  split; [| split].
  - intros lines Hmeta. now rewrite assembleLines_placed, Hmeta.
  - exact parseGlossNode_error.
  - intros data children file e Hparse.
    exact (visitor_throw data children file e Hparse).
Qed.

(** A row, a meta line, a row: the assembly fails with the placement
    text. *)
Lemma placement_error_on_block_witness :
  let row := RowLine {| type := RowText; words := [[Text (str "dog")]] |} in
  assembleLines [row; MetaLine [Text (str "misplaced")]; row] =
    Throw (Error placementMessage).
Proof.
  intros row.
  exact (proj1 placement_error_on_block
           [row; MetaLine [Text (str "misplaced")]; row] eq_refl).
Defined.

(** C6, as the claim has it, fails: a meta line at index 1 of three lines
    and one at index 2 of four lines give the same error, so that nothing
    read off the error tells the index; and the place of the message is the
    whole gloss block. *)
Lemma placement_error_without_index :
  let row := RowLine {| type := RowText; words := [[Text (str "dog")]] |} in
  let misplaced := MetaLine [Text (str "misplaced")] in
  let block := ContainerDirective "gloss" None
                 [Paragraph None
                    [Text (str "The dog"); Break; Text (str "| misplaced");
                     Break; Text (str "= a")]] in
  assembleLines [row; misplaced; row] = Throw (Error placementMessage)
  /\ assembleLines [row; row; misplaced; row] = Throw (Error placementMessage)
  /\ ~ (exists position : JsError -> nat,
          (forall e, assembleLines [row; misplaced; row] = Throw e ->
                     position e = 1)
          /\ (forall e, assembleLines [row; row; misplaced; row] = Throw e ->
                        position e = 2))
  /\ (exists thrown : VFileMessage,
        snd (remarkGloss [block] []) = Some thrown /\ place thrown = block).
Proof.
  cbv zeta. split; [reflexivity |]. split; [reflexivity |]. split.
  - intros [position [H1 H2]].
    specialize (H1 (Error placementMessage) eq_refl).
    specialize (H2 (Error placementMessage) eq_refl).
    congruence.
  - eexists. split; reflexivity.
Qed.

(** * Further properties of the gloss plugin *)

(** ** Lines and breaks *)

Section Frames.

Lemma atLast_app {A} (f : A -> Result JsError A) (ls st : list A) :
  st <> [] ->
  atLast f (ls ++ st) = (st' <- atLast f st ;; Ok (ls ++ st')).
Proof.
  intros Hne. destruct (exists_last Hne) as [front [x ->]].
  rewrite app_assoc, !atLast_snoc.
  destruct (f x) as [x' | e]; cbn [bind]; [| reflexivity].
  now rewrite app_assoc.
Qed.

Lemma atLast_nonEmpty {A} (f : A -> Result JsError A) (st st' : list A) :
  atLast f st = Ok st' -> st' <> [].
Proof.
  destruct st as [| x st]; [discriminate |].
  assert (Hne : x :: st <> []) by discriminate.
  destruct (exists_last Hne) as [front [y ->]].
  rewrite atLast_snoc. destruct (f y) as [y' | e]; cbn [bind]; [| discriminate].
  intros [= <-]. now destruct front.
Qed.

Lemma Framed_atLast (f : LineWords -> Result JsError LineWords) :
  Framed (atLast f).
Proof.
  intros ls st Hne. split.
  - now apply atLast_app.
  - intros st'. apply atLast_nonEmpty.
Qed.

Lemma Framed_ok (f : Lines -> Lines) :
  (forall ls st, st <> [] -> f (ls ++ st) = ls ++ f st /\ f st <> []) ->
  Framed (fun lines => Ok (f lines)).
Proof.
  intros Hf ls st Hne. destruct (Hf ls st Hne) as [Happ Hne'].
  split; [cbn [bind]; now rewrite Happ |].
  intros st' [= <-]. exact Hne'.
Qed.

Lemma Framed_pushLine : Framed (fun lines => Ok (pushLine lines)).
Proof.
  apply Framed_ok. intros ls st _. unfold pushLine, push. split.
  - now rewrite app_assoc.
  - now destruct st.
Qed.

Lemma Framed_skip : Framed (fun lines => Ok lines).
Proof. apply (Framed_ok (fun lines => lines)). now intros ls st Hne. Qed.

Lemma Framed_bind (step1 step2 : Lines -> Result JsError Lines) :
  Framed step1 -> Framed step2 ->
  Framed (fun lines => lines1 <- step1 lines ;; step2 lines1).
Proof.
  intros H1 H2 ls st Hne.
  destruct (H1 ls st Hne) as [Happ1 Hne1]. rewrite Happ1. split.
  - destruct (step1 st) as [st1 | e]; cbn [bind]; [| reflexivity].
    now apply H2, Hne1.
  - intros st'. destruct (step1 st) as [st1 | e]; cbn [bind]; [| discriminate].
    now apply (H2 [] st1), Hne1.
Qed.

Lemma Framed_forEach {A} (body : A -> Lines -> Result JsError Lines) :
  (forall x : A, Framed (body x)) ->
  forall l : list A, Framed (forEach body l).
Proof.
  intros Hbody. induction l as [| x l IH]; cbn [forEach].
  - apply Framed_skip.
  - now apply (Framed_bind (body x) (forEach body l)).
Qed.

Lemma Framed_processTextLines (textLines : list JsString) :
  forall i : nat, Framed (processTextLines i textLines).
Proof.
  induction textLines as [| t rest IH]; intros i; cbn [processTextLines].
  - apply Framed_skip.
  - cbv zeta.
    apply (Framed_bind
             (fun lines =>
                Ok (if 0 <? i then pushLine lines else lines))
             (fun lines1 =>
                lines2 <- processTextLine t lines1 ;;
                processTextLines (S i) rest lines2)).
    + destruct (0 <? i); [apply Framed_pushLine | apply Framed_skip].
    + apply (Framed_bind (processTextLine t) (processTextLines (S i) rest));
        [| apply IH].
      apply Framed_forEach. intros token. unfold processToken.
      destruct token as [| c token]; [apply Framed_skip |].
      destruct (allSpace (c :: token)); apply Framed_atLast.
Qed.

Lemma Framed_processChild (child : PhrasingContent) :
  Framed (processChild child).
Proof.
  destruct child as [value | | t cs]; cbn [processChild].
  - apply Framed_processTextLines.
  - apply Framed_pushLine.
  - apply Framed_atLast.
Qed.

(** The children after a break are extracted as if they stood alone. *)
Lemma rawLines_break (a b : list PhrasingContent) :
  rawLines (a ++ Break :: b) =
    (la <- rawLines a ;; lb <- rawLines b ;; Ok (la ++ lb)).
Proof.
  unfold rawLines. rewrite forEach_app.
  destruct (forEach processChild a [[[]]]) as [la | e]; cbn [bind forEach];
    [| reflexivity].
  cbn [processChild bind]. unfold pushLine, push.
  now apply (Framed_forEach processChild Framed_processChild b la [[[]]]).
Qed.

Lemma extractLines_rawLines (children : list PhrasingContent) :
  extractLines children =
    (lines <- rawLines children ;;
     Ok (filter nonEmpty (map (fun line => filter nonEmpty line) lines))).
Proof. reflexivity. Qed.

End Frames.

(** X1: a break cuts the extraction in two: the lines of the children
    before it, followed by the lines of the children after it. *)
Theorem extractLines_at_break (a b : list PhrasingContent) :
  extractLines (a ++ Break :: b) =
    (la <- extractLines a ;; lb <- extractLines b ;; Ok (la ++ lb)).
Proof.
  rewrite !extractLines_rawLines, rawLines_break.
  destruct (rawLines a) as [la | e]; cbn [bind]; [| reflexivity].
  destruct (rawLines b) as [lb | e]; cbn [bind]; [| reflexivity].
  now rewrite map_app, filter_app.
Qed.

Section Paragraphs.

Lemma collectChild_Paragraph (data : option Data)
  (children : list PhrasingContent) (lines : list Line) :
  collectChild (Paragraph data children) lines =
    (extracted <- extractLines children ;;
     Ok (lines ++ map classify extracted)).
Proof.
  cbn [collectChild].
  destruct (extractLines children) as [extracted | e]; cbn [bind];
    [| reflexivity].
  revert lines. induction extracted as [| line extracted IH]; intros lines.
  - cbn. now rewrite app_nil_r.
  - cbn [forEach bind map]. rewrite IH. unfold push.
    now rewrite <- app_assoc.
Qed.

Lemma collectChild_break (d d1 d2 : option Data)
  (a b : list PhrasingContent) (lines : list Line) :
  collectChild (Paragraph d (a ++ Break :: b)) lines =
    (lines1 <- collectChild (Paragraph d1 a) lines ;;
     collectChild (Paragraph d2 b) lines1).
Proof.
  rewrite !collectChild_Paragraph, !extractLines_rawLines, rawLines_break.
  destruct (rawLines a) as [la | e]; cbn [bind]; [| reflexivity].
  rewrite collectChild_Paragraph, extractLines_rawLines.
  destruct (rawLines b) as [lb | e]; cbn [bind]; [| reflexivity].
  now rewrite map_app, filter_app, map_app, app_assoc.
Qed.

End Paragraphs.

(** X2: inside a gloss block a paragraph boundary counts as a line break:
    a paragraph with a break in it can be cut in two paragraphs at the break
    without changing what [parseGlossNode] returns. *)
Theorem parseGlossNode_paragraph_break (pre post : list Node)
  (d d1 d2 : option Data) (a b : list PhrasingContent) :
  parseGlossNode (pre ++ Paragraph d (a ++ Break :: b) :: post) =
  parseGlossNode (pre ++ Paragraph d1 a :: Paragraph d2 b :: post).
Proof.
  unfold parseGlossNode, collectLines. f_equal.
  rewrite !(forEach_app collectChild pre).
  destruct (forEach collectChild pre []) as [lines | e]; cbn [bind];
    [| reflexivity].
  cbn [forEach]. rewrite (collectChild_break d d1 d2), bind_assoc.
  reflexivity.
Qed.

Section Spans.

Lemma flush_clean (cur : JsString) :
  forallb (fun c => negb (isSpace c)) cur = true ->
  Forall (fun r : JsString =>
            r <> [] /\ forallb (fun c => negb (isSpace c)) r = true)
    (flush cur).
Proof.
  intros Hcur. destruct cur as [| c cur]; constructor; [| constructor].
  split.
  - intros Hrev. apply (f_equal (@rev Char)) in Hrev.
    rewrite rev_involutive in Hrev. discriminate.
  - now rewrite forallb_rev.
Qed.

(** The runs of a text are not empty and hold no whitespace. *)
Lemma textRuns_clean (s : JsString) :
  forall cur : JsString,
    forallb (fun c => negb (isSpace c)) cur = true ->
    Forall (fun r : JsString =>
              r <> [] /\ forallb (fun c => negb (isSpace c)) r = true)
      (textRuns cur s).
Proof.
  induction s as [| c s IH]; intros cur Hcur; cbn [textRuns].
  - now apply flush_clean.
  - destruct (isSpace c) eqn:Hc.
    + apply Forall_app. split; [now apply flush_clean | now apply IH].
    + apply IH. cbn. now rewrite Hc.
Qed.

Lemma childSpans_clean (child : PhrasingContent) :
  Forall cleanSpan (childSpans child).
Proof.
  destruct child as [value | | t cs]; cbn [childSpans].
  - apply Forall_map. apply (textRuns_clean value []). reflexivity.
  - constructor.
  - repeat constructor.
Qed.

Lemma Forall_concat {A} (P : A -> Prop) (l : list (list A)) :
  Forall P (concat l) <-> Forall (Forall P) l.
Proof.
  induction l as [| x l IH]; cbn [concat].
  - split; constructor.
  - rewrite Forall_app, IH. split.
    + intros [Hx Hl]. now constructor.
    + intros H. now inversion H.
Qed.

(** A text without a character other than whitespace has no run, and the
    other way round. *)
Lemma textRuns_blank (s : JsString) :
  forall cur : JsString,
    textRuns cur s = [] <-> cur = [] /\ forallb isSpace s = true.
Proof.
  induction s as [| c s IH]; intros cur; cbn [textRuns forallb].
  - destruct cur; cbn; split; try easy.
  - destruct (isSpace c); cbn [andb].
    + split.
      * intros H. apply app_eq_nil in H. destruct H as [Hcur Hs].
        apply IH in Hs. destruct cur; [easy | discriminate].
      * intros [-> Hs]. cbn. now apply IH.
    + rewrite IH. split; [now intros [H _] | now intros [_ H]].
Qed.

Lemma childSpans_blank (child : PhrasingContent) :
  childSpans child = [] <-> blankChild child = true.
Proof.
  destruct child as [value | | t cs]; cbn [childSpans blankChild].
  - split.
    + intros H. apply map_eq_nil in H. now apply textRuns_blank in H.
    + intros H. assert (Hruns : textRuns [] value = [])
        by now apply textRuns_blank.
      now rewrite Hruns.
  - easy.
  - easy.
Qed.

Lemma flat_map_nil {A B} (f : A -> list B) (l : list A) :
  flat_map f l = [] <-> Forall (fun x => f x = []) l.
Proof.
  induction l as [| x l IH]; cbn [flat_map].
  - split; constructor.
  - split.
    + intros H. apply app_eq_nil in H. destruct H as [Hx Hl].
      constructor; [assumption | now apply IH].
    + intros H. inversion H as [| ? ? Hx Hl]. rewrite Hx. now apply IH.
Qed.

End Spans.

(** X3: every span of every word [extractLines] returns is a text that is
    not empty and holds no whitespace, or a node other than a text or a
    break, whatever the source texts hold. *)
Theorem extractLines_spans_clean (children : list PhrasingContent) :
  exists lines : list LineWords,
    extractLines children = Ok lines
    /\ Forall (Forall (Forall cleanSpan)) lines.
Proof.
  destruct (extractLines_ok children) as [lines [Heq [_ Hs]]].
  exists lines. split; [assumption |].
  apply (proj1 (Forall_concat _ _)), (proj1 (Forall_concat _ _)).
  change (Forall cleanSpan (spansOf lines)). rewrite Hs.
  apply Forall_flat_map, Forall_forall.
  intros child _. apply childSpans_clean.
Qed.

(** X4: [extractLines] returns no line exactly when every child is a break
    or a text of whitespace only. *)
Theorem extractLines_blank (children : list PhrasingContent) :
  extractLines children = Ok [] <-> forallb blankChild children = true.
Proof.
  destruct (extractLines_ok children) as [lines [Heq [Hne Hs]]].
  rewrite Heq, forallb_forall, <- Forall_forall.
  split.
  - intros [= ->]. cbn in Hs. symmetry in Hs. apply flat_map_nil in Hs.
    revert Hs. apply Forall_impl. intros child. apply childSpans_blank.
  - intros Hblank.
    assert (Hnil : flat_map childSpans children = []).
    { apply flat_map_nil. revert Hblank. apply Forall_impl.
      intros child. apply childSpans_blank. }
    rewrite Hnil in Hs. f_equal.
    destruct lines as [| line lines]; [reflexivity |].
    inversion Hne as [| ? ? [Hline Hwords] _]. subst.
    destruct line as [| w line]; [contradiction |].
    inversion Hwords as [| ? ? Hw _]. subst.
    destruct w as [| span w]; [contradiction |].
    discriminate.
Qed.

(** ** The assembled gloss *)

Section Assembled.

Lemma rowsOf_app (l1 l2 : list Line) : rowsOf (l1 ++ l2) = rowsOf l1 ++ rowsOf l2.
Proof. unfold rowsOf. apply flat_map_app. Qed.

Lemma rowsOf_no_meta (l : list Line) :
  existsb isMeta l = false -> length (rowsOf l) = length l.
Proof.
  induction l as [| x l IH]; [reflexivity |].
  destruct x as [c | row]; cbn [existsb isMeta orb]; [discriminate |].
  intros H. cbn. f_equal. now apply IH.
Qed.

Lemma metaAt_last (front : list Line) (y : Line) :
  metaAt (front ++ [y]) (length front) =
    match y with
    | MetaLine c => Some c
    | RowLine _ => None
    end.
Proof.
  unfold metaAt. rewrite nth_error_app2, Nat.sub_diag by lia.
  now destruct y.
Qed.

(** Without a meta line between the first and the last, every line is the
    header, the footer or a row. *)
Lemma placed_count (lines : list Line) :
  interiorMeta lines = false ->
  length (rows (placed lines)) + optCount (header (placed lines))
  + optCount (footer (placed lines)) = length lines.
Proof.
  unfold interiorMeta, placed. cbn [rows header footer].
  destruct lines as [| x rest]; [reflexivity |].
  cbn [tl]. intros Hmid.
  change (x :: rest) with ([x] ++ rest) at 1. rewrite rowsOf_app, length_app.
  assert (Hfirst : length (rowsOf [x]) + optCount (metaAt (x :: rest) 0) = 1)
    by now destruct x.
  assert (Hrest : length (rowsOf rest)
                  + optCount (if 1 <? length (x :: rest)
                              then metaAt (x :: rest) (length (x :: rest) - 1)
                              else None) = length rest).
  { destruct rest as [| y rest'] using rev_ind; [reflexivity |].
    clear IHrest'. rewrite removelast_last in Hmid.
    rewrite rowsOf_app, length_app, (rowsOf_no_meta _ Hmid).
    replace (1 <? length (x :: rest' ++ [y])) with true
      by (symmetry; apply Nat.ltb_lt; cbn; rewrite length_app; cbn; lia).
    replace (length (x :: rest' ++ [y]) - 1) with (S (length rest'))
      by (cbn; rewrite length_app; cbn; lia).
    change (metaAt (x :: rest' ++ [y]) (S (length rest')))
      with (metaAt (rest' ++ [y]) (length rest')).
    rewrite metaAt_last, length_app. destruct y; cbn; lia. }
  cbn [length] in *. lia.
Qed.

End Assembled.

(** X5: when the assembly succeeds every line is used once: the rows, the
    header and the footer together are as many as the lines. *)
Theorem assembleLines_count (lines : list Line) (g : Gloss) :
  assembleLines lines = Ok g ->
  length (rows g) + optCount (header g) + optCount (footer g) = length lines.
Proof.
  rewrite assembleLines_placed.
  destruct (interiorMeta lines) eqn:Hmid; [discriminate |].
  intros [= <-]. now apply placed_count.
Qed.

(** A caption, two rows and a footer: four lines, two of them rows. *)
Lemma assembleLines_count_witness :
  let row := RowLine {| type := RowText; words := [[Text (str "dog")]] |} in
  length (rowsOf [MetaLine []; row; row; MetaLine []]) + 1 + 1 = 4.
Proof.
  intros row.
  exact (assembleLines_count [MetaLine []; row; row; MetaLine []]
           (placed [MetaLine []; row; row; MetaLine []]) eq_refl).
Defined.

Section ParsedRows.

Lemma classify_nonEmpty (line : LineWords) :
  Forall (fun w => w <> []) line -> nonEmptyWords (classify line).
Proof.
  intros Hline. unfold classify.
  destruct (parseLinePrefix line) as [content | t ws] eqn:Hparsed; [exact I |].
  cbn. now apply (parseLinePrefix_nonEmpty line t ws).
Qed.

Lemma collectLines_nonEmpty (children : list Node) :
  forall lines lines' : list Line,
    Forall nonEmptyWords lines ->
    forEach collectChild children lines = Ok lines' ->
    Forall nonEmptyWords lines'.
Proof.
  induction children as [| child children IH]; intros lines lines' Hlines.
  - now intros [= <-].
  - cbn [forEach].
    destruct (collectChild child lines) as [lines1 | e] eqn:Hchild;
      cbn [bind]; [| discriminate].
    apply IH.
    destruct child as [data children0 | | | |];
      try (cbn [collectChild] in Hchild; injection Hchild as <-; assumption).
    rewrite collectChild_Paragraph in Hchild.
    destruct (extractLines_ok children0) as [extracted [Heq [Hne _]]].
    rewrite Heq in Hchild. cbn [bind] in Hchild. injection Hchild as <-.
    apply Forall_app. split; [assumption |].
    apply Forall_map. revert Hne. apply Forall_impl.
    intros line [_ Hwords]. now apply classify_nonEmpty.
Qed.

Lemma rowsOf_nonEmpty (lines : list Line) :
  Forall nonEmptyWords lines ->
  Forall (fun row => Forall (fun w : Word => w <> []) (words row))
    (rowsOf lines).
Proof.
  induction 1 as [| line lines Hline _ IH]; [constructor |].
  destruct line as [c | row]; cbn [rowsOf flat_map app]; [exact IH |].
  now constructor.
Qed.

Lemma parseGlossNode_rows (children : list Node) (g : Gloss) :
  parseGlossNode children = Ok g ->
  Forall (fun row => Forall (fun w : Word => w <> []) (words row)) (rows g).
Proof.
  unfold parseGlossNode, collectLines.
  destruct (forEach collectChild children []) as [lines | e] eqn:Hlines;
    cbn [bind]; [| discriminate].
  rewrite assembleLines_placed.
  destruct (interiorMeta lines); [discriminate |].
  intros [= <-]. cbn [rows placed].
  apply rowsOf_nonEmpty.
  now apply (collectLines_nonEmpty children [] lines).
Qed.

End ParsedRows.

(** X6: no row of a gloss [parseGlossNode] returns holds an empty word;
    so in the grid built from it the item of a row in a column holds the
    row's word at that column, in a paragraph, and it is without a child
    exactly when the row has no word there. *)
Theorem parseGlossNode_grid_items (children : list Node) (g : Gloss) :
  parseGlossNode children = Ok g ->
  Forall (fun row => Forall (fun w : Word => w <> []) (words row)) (rows g)
  /\ forall (col r : nat) (row : GlossRow),
       nth_error (rows g) r = Some row ->
       exists cell : ColumnWord,
         nth_error (columnWords (rows g) col) r = Some cell
         /\ createCell cell =
              ListItem (Some false)
                (Some {| hName := None;
                         hClass := Some ("gloss-word gloss-word-"
                                         ++ typeName (type row))%string |})
                (match nth_error (words row) col with
                 | Some w => [Paragraph None w]
                 | None => []
                 end).
Proof.
  intros Hparse. pose proof (parseGlossNode_rows children g Hparse) as Hrows.
  split; [exact Hrows |].
  intros col r row Hrow.
  exists {| cellType := type row; word := nth_error (words row) col |}.
  rewrite columnWords_nth, Hrow. split; [reflexivity |].
  unfold createCell. cbn [cellType word]. f_equal.
  destruct (nth_error (words row) col) as [w |] eqn:Hw; [| reflexivity].
  rewrite Forall_forall in Hrows.
  pose proof (Hrows row (nth_error_In _ _ Hrow)) as Hwords.
  rewrite Forall_forall in Hwords.
  pose proof (Hwords w (nth_error_In _ _ Hw)) as Hne.
  destruct w as [| span w]; [contradiction | reflexivity].
Qed.

(** A block of two lines, the second a marker with one word after it: in
    column 1 the gloss row has an item without a child. *)
Lemma parseGlossNode_grid_items_witness :
  let g := {| header := None;
              rows := [ {| type := RowText;
                           words := [[Text (str "The")]; [Text (str "dog")]] |};
                        {| type := RowGloss;
                           words := [[Text (str "the")]] |} ];
              footer := None |} in
  exists cell : ColumnWord,
    nth_error (columnWords (rows g) 1) 1 = Some cell
    /\ createCell cell =
         ListItem (Some false)
           (Some {| hName := None;
                    hClass := Some "gloss-word gloss-word-gloss" |}) [].
Proof.
  intros g.
  exact (proj2 (parseGlossNode_grid_items
                  [Paragraph None
                     [Text (str "The dog"); Break; Text (str "= the")]]
                  g eq_refl)
           1 1 {| type := RowGloss; words := [[Text (str "the")]] |} eq_refl).
Defined.

(** ** The columns *)

Section Transpose.

Lemma flat_map_nth_error {A} (l : list A) :
  forall n : nat,
    flat_map (fun i => match nth_error l i with
                       | Some x => [x]
                       | None => []
                       end) (seq 0 n) = firstn n l.
Proof.
  induction l as [| x l IH]; intros n.
  - rewrite firstn_nil. apply flat_map_nil, Forall_forall.
    intros i _. now destruct i.
  - destruct n as [| n]; [reflexivity |].
    cbn [seq flat_map nth_error firstn app]. f_equal.
    rewrite <- seq_shift, flat_map_concat_map, map_map,
      <- flat_map_concat_map.
    apply IH.
Qed.

Lemma list_max_ge (l : list nat) (n : nat) : In n l -> n <= list_max l.
Proof.
  intros Hin. pose proof (proj1 (list_max_le l (list_max l)) (le_n _)) as H.
  rewrite Forall_forall in H. now apply H.
Qed.

Lemma existsb_list_max (rows : list GlossRow) :
  (0 <? list_max (map wordCount rows)) =
  existsb (fun row => nonEmpty (words row)) rows.
Proof.
  induction rows as [| row rows IH]; [reflexivity |].
  cbn [map list_max fold_right existsb]. fold (list_max (map wordCount rows)).
  rewrite <- IH. unfold wordCount at 1.
  destruct (words row) as [| w ws]; cbn [length nonEmpty orb Nat.max];
    [reflexivity |].
  now destruct (list_max (map wordCount rows)).
Qed.

End Transpose.

(** X7: reading the columns from left to right gives back each row: the
    words that the columns hold for a row are the row's words, all of them
    and in order. *)
Theorem buildColumns_rows_back (rows : list GlossRow) (r : nat) (row : GlossRow) :
  nth_error rows r = Some row ->
  rowFromColumns rows r = words row.
Proof.
  intros Hrow. unfold rowFromColumns.
  assert (Hlen : length (buildColumns rows) = list_max (map wordCount rows)).
  { unfold buildColumns. now rewrite length_map, length_seq, maxOf_list_max. }
  rewrite Hlen.
  rewrite (flat_map_ext _ (fun col => match nth_error (words row) col with
                                      | Some w => [w]
                                      | None => []
                                      end)).
  - rewrite flat_map_nth_error. apply firstn_all2.
    apply list_max_ge, in_map_iff. exists row.
    split; [reflexivity | now apply nth_error_In with (n := r)].
  - intros col. now rewrite columnWords_nth, Hrow.
Qed.

(** Two rows of three and two words: the shorter one comes back with its
    two words. *)
Lemma buildColumns_rows_back_witness :
  let rows :=
    [ {| type := RowText;
         words := [[Text (str "The")]; [Text (str "dog")]; [Text (str "runs")]] |};
      {| type := RowGloss;
         words := [[Text (str "the")]; [Text (str "dog")]] |} ] in
  rowFromColumns rows 1 = [[Text (str "the")]; [Text (str "dog")]].
Proof.
  intros rows.
  exact (buildColumns_rows_back rows 1
           {| type := RowGloss;
              words := [[Text (str "the")]; [Text (str "dog")]] |} eq_refl).
Defined.

(** X8: the children [remarkGloss] gives a gloss block are the header if
    there is one, the grid if some row has a word, and the footer if there
    is one, in this order. *)
Theorem figureChildren_shape (g : Gloss) :
  figureChildren g =
    (match header g with
     | Some h => [createHeader h]
     | None => []
     end)
    ++ (if existsb (fun row => nonEmpty (words row)) (rows g)
        then [createWordGrid (buildColumns (rows g))] else [])
    ++ (match footer g with
        | Some f => [createFooter f]
        | None => []
        end)
  /\ length (figureChildren g) =
       optCount (header g)
       + (if existsb (fun row => nonEmpty (words row)) (rows g) then 1 else 0)
       + optCount (footer g).
Proof.
  assert (Hgrid : (0 <? length (buildColumns (rows g))) =
                  existsb (fun row => nonEmpty (words row)) (rows g)).
  { unfold buildColumns.
    rewrite length_map, length_seq, maxOf_list_max.
    apply existsb_list_max. }
  unfold figureChildren. cbv zeta. rewrite Hgrid. split; [reflexivity |].
  rewrite !length_app.
  destruct (header g), (footer g),
    (existsb (fun row => nonEmpty (words row)) (rows g)); reflexivity.
Qed.

(** ** The transformer on whole trees *)

Section Trees.

Lemma visitAll_noGloss (nodes : list Node) :
  Forall (fun n => noGloss n = true ->
                   forall file, visit n file = (n, file, None)) nodes ->
  forallb noGloss nodes = true ->
  forall file : VFile, visitAll nodes file = (nodes, file, None).
Proof.
  induction 1 as [| n nodes Hn _ IH]; intros Hall file; [reflexivity |].
  cbn [forallb] in Hall. apply andb_prop in Hall. destruct Hall as [Hn' Hall].
  now rewrite visitAll_cons, (Hn Hn'), (IH Hall).
Qed.

Lemma visit_noGloss (n : Node) :
  noGloss n = true -> forall file : VFile, visit n file = (n, file, None).
Proof.
  induction n as [data children | ordered spread data children IH
                 | spread data children IH | name data children IH
                 | t children IH] using Node_children_ind;
    cbn [noGloss]; intros Hno file.
  - reflexivity.
  - now rewrite visit_ListNode, (visitAll_noGloss children IH Hno).
  - now rewrite visit_ListItem, (visitAll_noGloss children IH Hno).
  - apply andb_prop in Hno. destruct Hno as [Hname Hno].
    rewrite visit_ContainerDirective.
    apply negb_true_iff in Hname. rewrite Hname.
    now rewrite (visitAll_noGloss children IH Hno).
  - now rewrite visit_Block, (visitAll_noGloss children IH Hno).
Qed.

Lemma visit_sameHead (n : Node) (file : VFile) :
  sameHead n (fst (fst (visit n file))).
Proof.
  destruct n as [data children | ordered spread data children
                | spread data children | name data children | t children].
  - exact I.
  - rewrite visit_ListNode.
    now destruct (visitAll children file) as [[children' file'] thrown].
  - rewrite visit_ListItem.
    now destruct (visitAll children file) as [[children' file'] thrown].
  - rewrite visit_ContainerDirective.
    destruct (String.eqb_spec name "gloss") as [-> | Hname].
    + cbn [visitor String.eqb Ascii.eqb Bool.eqb negb].
      now destruct (parseGlossNode children).
    + now destruct (visitAll children file) as [[children' file'] thrown].
  - rewrite visit_Block.
    now destruct (visitAll children file) as [[children' file'] thrown].
Qed.

Lemma sameHead_refl (n : Node) : sameHead n n.
Proof. now destruct n. Qed.

End Trees.

(** X9: a tree without a gloss block, at any depth, goes through
    [remarkGloss] unchanged: the same tree, no message, no exception. *)
Theorem remarkGloss_noGloss (tree : list Node) (file : VFile) :
  forallb noGloss tree = true ->
  remarkGloss tree file = (tree, file, None).
Proof.
  intros Hno. apply visitAll_noGloss; [| assumption].
  apply Forall_forall. intros n _. apply visit_noGloss.
Qed.

(** A paragraph and a directive of another name around a list. *)
Lemma remarkGloss_noGloss_witness :
  let tree := [ Paragraph None [Text (str "| not in a gloss block")];
                ContainerDirective "note" None
                  [ListNode false None None
                     [ListItem None None [Paragraph None [Text (str "= x")]]]] ] in
  remarkGloss tree [] = (tree, [], None).
Proof.
  intros tree. exact (remarkGloss_noGloss tree [] eq_refl).
Defined.

(** X10: whether it stops on an exception or not, [remarkGloss] returns as
    many top-level nodes as it was given, each of the type of the node it
    was given and, for a directive, of the same name: a gloss block stays a
    container directive named gloss. *)
Theorem remarkGloss_sameHead (tree : list Node) (file : VFile) :
  Forall2 sameHead tree (fst (fst (remarkGloss tree file))).
Proof.
  unfold remarkGloss. revert file.
  induction tree as [| n tree IH]; intros file; [constructor |].
  rewrite visitAll_cons. pose proof (visit_sameHead n file) as Hn.
  destruct (visit n file) as [[n' file'] [thrown |]]; cbn [fst] in *.
  - constructor; [assumption |].
    clear. induction tree; constructor; [apply sameHead_refl | assumption].
  - specialize (IH file').
    destruct (visitAll tree file') as [[tree' file''] thrown]; cbn [fst] in *.
    now constructor.
Qed.

(** * The small-caps plugin *)

Section SmallcapsFacts.

Import Smallcaps.

Lemma Smallcaps_Node_ind (P : Node -> Prop) :
  (forall t n d v ch, Forall P ch -> P (mkNode t n d v ch)) ->
  forall node : Node, P node.
Proof.
  intros Hnode. fix IH 1. intros [t n d v ch].
  apply Hnode. induction ch as [| c ch IHch]; constructor;
    [apply IH | exact IHch].
Qed.

Lemma Smallcaps_visitor_eq t n d v ch :
  visitor (mkNode t n d v ch) = mkNode t n (dataAfter t n d) v ch.
Proof.
  unfold visitor, dataAfter.
  destruct (isDirective t); [| reflexivity].
  now destruct (isSmallcaps n).
Qed.

Lemma Smallcaps_visit_eq t n d v ch :
  visit (mkNode t n d v ch) = mkNode t n (dataAfter t n d) v (map visit ch).
Proof.
  cbn [visit]. now rewrite Smallcaps_visitor_eq.
Qed.

Lemma dataAfter_twice t n d : dataAfter t n (dataAfter t n d) = dataAfter t n d.
Proof.
  unfold dataAfter. now destruct (isDirective t && isSmallcaps n).
Qed.

Lemma dataAfter_unmarked t n d :
  isDirective t && isSmallcaps n = false -> dataAfter t n d = d.
Proof. unfold dataAfter. now intros ->. Qed.

Lemma map_fixed {A} (f : A -> A) (l : list A) :
  Forall (fun x => f x = x) l -> map f l = l.
Proof.
  induction 1 as [| x l Hx _ IH]; [reflexivity |].
  cbn [map]. now rewrite Hx, IH.
Qed.

Lemma Forall2_flat_map {A B} (R : B -> B -> Prop) (f : A -> list B)
  (g : A -> A) (l : list A) :
  Forall (fun x => Forall2 R (f x) (f (g x))) l ->
  Forall2 R (flat_map f l) (flat_map f (map g l)).
Proof.
  induction 1 as [| x l Hx _ IH]; [constructor |].
  cbn [flat_map map]. now apply Forall2_app.
Qed.

End SmallcapsFacts.

(** X11: running the small-caps plugin on its own result changes nothing. *)
Theorem remarkSmallcaps_idempotent (tree : Smallcaps.Node) :
  Smallcaps.remarkSmallcaps (Smallcaps.remarkSmallcaps tree) =
  Smallcaps.remarkSmallcaps tree.
Proof.
  unfold Smallcaps.remarkSmallcaps.
  induction tree as [t n d v ch IH] using Smallcaps_Node_ind.
  rewrite !Smallcaps_visit_eq, dataAfter_twice. f_equal.
  rewrite map_map. apply map_ext_Forall. exact IH.
Qed.

(** X12: the small-caps plugin keeps the tree and writes to the data of
    the directives named smallcaps or sc only: node by node, in document
    order, the result has the type, the name, the value and the number of
    children of the source; a node that is not such a directive keeps its
    data; such a directive gets the element name span when it is a text
    directive and div otherwise, the class smallcaps as its only property,
    and keeps the other fields of its data. *)
Theorem remarkSmallcaps_restyles (tree : Smallcaps.Node) :
  Forall2 Smallcaps.Restyled (Smallcaps.nodes tree)
    (Smallcaps.nodes (Smallcaps.remarkSmallcaps tree)).
Proof.
  unfold Smallcaps.remarkSmallcaps.
  induction tree as [t n d v ch IH] using Smallcaps_Node_ind.
  rewrite Smallcaps_visit_eq. cbn [Smallcaps.nodes]. constructor.
  - unfold Smallcaps.Restyled, Smallcaps.marked, Smallcaps.styled.
    cbn [Smallcaps.type Smallcaps.name Smallcaps.value Smallcaps.children
         Smallcaps.data].
    rewrite length_map.
    split; [reflexivity |]. split; [reflexivity |]. split; [reflexivity |].
    split; [reflexivity |]. split.
    + intros Hm. now apply dataAfter_unmarked.
    + intros Hm. unfold Smallcaps.dataAfter. rewrite Hm.
      split; [eexists; reflexivity | reflexivity].
  - now apply Forall2_flat_map.
Qed.

(** X13: a tree without a directive named smallcaps or sc goes through the
    small-caps plugin unchanged. *)
Theorem remarkSmallcaps_unmarked (tree : Smallcaps.Node) :
  forallb (fun node => negb (Smallcaps.marked node)) (Smallcaps.nodes tree)
    = true ->
  Smallcaps.remarkSmallcaps tree = tree.
Proof.
  unfold Smallcaps.remarkSmallcaps.
  induction tree as [t n d v ch IH] using Smallcaps_Node_ind.
  cbn [Smallcaps.nodes forallb]. intros Hall.
  apply andb_prop in Hall. destruct Hall as [Hhead Hrest].
  rewrite Smallcaps_visit_eq. apply negb_true_iff in Hhead.
  rewrite (dataAfter_unmarked _ _ _ Hhead). f_equal.
  apply map_fixed.
  rewrite forallb_forall in Hrest. rewrite Forall_forall in *.
  intros c Hc. apply (IH c Hc). apply forallb_forall.
  intros x Hx. apply Hrest, in_flat_map. now exists c.
Qed.

(** A root with a paragraph that holds a text directive of another name. *)
Lemma remarkSmallcaps_unmarked_witness :
  let tree :=
    Smallcaps.mkNode "root" None None None
      [Smallcaps.mkNode "paragraph" None None None
         [Smallcaps.mkNode "text" None None (Some (str "a ")) [];
          Smallcaps.mkNode "textDirective" (Some "abbr") None None
            [Smallcaps.mkNode "text" None None (Some (str "b")) []]]] in
  Smallcaps.remarkSmallcaps tree = tree.
Proof.
  intros tree. exact (remarkSmallcaps_unmarked tree eq_refl).
Defined.

(** * The table-wrapping plugin *)

Section WrapTablesFacts.

Import WrapTables.

Lemma WrapTables_Node_ind (P : Node -> Prop) :
  (forall tagName properties children,
     Forall P children -> P (Element tagName properties children)) ->
  (forall value, P (Text value)) ->
  (forall t value, P (Literal t value)) ->
  forall node : Node, P node.
Proof.
  intros Helement Htext Hliteral. fix IH 1. intros [t p ch | v | t v].
  - apply Helement. induction ch as [| c ch IHch]; constructor;
      [apply IH | exact IHch].
  - apply Htext.
  - apply Hliteral.
Qed.

Lemma WrapTables_visit_eq tagName properties children :
  visit (Element tagName properties children) =
    Element tagName properties (map slot children).
Proof. reflexivity. Qed.

Lemma WrapTables_unwrap_eq tagName properties children :
  unwrap (Element tagName properties children) =
    Element tagName properties (map unslot children).
Proof. reflexivity. Qed.

Lemma isTable_visit (node : Node) : isTable (visit node) = isTable node.
Proof. now destruct node. Qed.

(** A table is never left in a slot. *)
Lemma isTable_slot (node : Node) : isTable (slot node) = false.
Proof.
  unfold slot. destruct (isTable node) eqn:Htable; [reflexivity |].
  now rewrite isTable_visit.
Qed.

Lemma isContainer_container (node : Node) : isContainer (container node) = true.
Proof. reflexivity. Qed.

Lemma isContainer_map (f : Node -> Node) tagName properties children :
  isContainer (Element tagName properties (map f children)) =
  isContainer (Element tagName properties children).
Proof. now destruct children as [| c [| c' children]]. Qed.

Lemma list_sum_cons (n : nat) (l : list nat) :
  list_sum (n :: l) = n + list_sum l.
Proof. reflexivity. Qed.

Lemma list_sum_map_ext {A} (f g : A -> nat) (l : list A) :
  Forall (fun x => f x = g x) l -> list_sum (map f l) = list_sum (map g l).
Proof.
  induction 1 as [| x l Hx _ IH]; [reflexivity |].
  cbn [map]. now rewrite !list_sum_cons, Hx, IH.
Qed.

Lemma list_sum_map_add {A} (f g : A -> nat) (l : list A) :
  list_sum (map (fun x => f x + g x) l) =
  list_sum (map f l) + list_sum (map g l).
Proof.
  induction l as [| x l IH]; [reflexivity |].
  cbn [map]. rewrite !list_sum_cons, IH. lia.
Qed.

Lemma slot_counts (node : Node) :
  countTables (slot node) = countTables node
  /\ countContainers (slot node) = countContainers node + countTables node.
Proof.
  induction node as [t p ch IH | v | t v] using WrapTables_Node_ind;
    [| now split | now split].
  assert (Htables : countTables (visit (Element t p ch)) =
                    countTables (Element t p ch)).
  { rewrite WrapTables_visit_eq. cbn [countTables]. f_equal.
    rewrite map_map. apply list_sum_map_ext.
    revert IH. apply Forall_impl. now intros c [Hc _]. }
  assert (Hcontainers : countContainers (visit (Element t p ch)) =
                        countContainers (Element t p ch)
                        + list_sum (map countTables ch)).
  { rewrite WrapTables_visit_eq. cbn [countContainers].
    rewrite isContainer_map, map_map.
    rewrite (list_sum_map_ext _ (fun c => countContainers c + countTables c))
      by (revert IH; apply Forall_impl; now intros c [_ Hc]).
    rewrite list_sum_map_add. lia. }
  unfold slot. cbn [isTable].
  destruct (t =? "table")%string eqn:Htable.
  - unfold container.
    change (countTables (Element "div" [("className", ["table-container"])]
                           [visit (Element t p ch)]))
      with (0 + (countTables (visit (Element t p ch)) + 0)).
    change (countContainers (Element "div" [("className", ["table-container"])]
                               [visit (Element t p ch)]))
      with (1 + (countContainers (visit (Element t p ch)) + 0)).
    rewrite Htables, Hcontainers. cbn [countTables]. rewrite Htable.
    split; lia.
  - rewrite Htables, Hcontainers. cbn [countTables]. rewrite Htable.
    split; lia.
Qed.

Lemma slot_wrapped (node : Node) :
  forall inContainer : bool, wrapped inContainer (slot node) = true.
Proof.
  induction node as [t p ch IH | v | t v] using WrapTables_Node_ind;
    intros inContainer; [| reflexivity | reflexivity].
  assert (Hch : forall b, forallb (wrapped b) (map slot ch) = true).
  { intros b. apply forallb_forall. intros x Hx.
    apply in_map_iff in Hx. destruct Hx as [c [<- Hc]].
    rewrite Forall_forall in IH. now apply IH. }
  unfold slot. cbn [isTable].
  destruct (t =? "table")%string eqn:Htable.
  - unfold container. rewrite WrapTables_visit_eq.
    cbn [wrapped forallb String.eqb Ascii.eqb Bool.eqb andb isContainer].
    now rewrite Htable, Hch.
  - rewrite WrapTables_visit_eq. cbn [wrapped]. now rewrite Htable, Hch.
Qed.

Lemma slot_unslot (node : Node) : unslot (slot node) = node.
Proof.
  induction node as [t p ch IH | v | t v] using WrapTables_Node_ind;
    [| reflexivity | reflexivity].
  assert (Hback : unwrap (visit (Element t p ch)) = Element t p ch).
  { rewrite WrapTables_visit_eq, WrapTables_unwrap_eq. f_equal.
    rewrite map_map. now apply map_fixed. }
  unfold slot. destruct (isTable (Element t p ch)) eqn:Htable.
  - unfold container, unslot.
    rewrite isTable_visit, Htable.
    change (isContainer (Element "div" [("className", ["table-container"])]
                           [visit (Element t p ch)])) with true.
    exact Hback.
  - unfold unslot. rewrite WrapTables_visit_eq.
    destruct (map slot ch) as [| inner [| inner' rest]] eqn:Hmap;
      rewrite <- ?Hmap, <- ?WrapTables_visit_eq; try exact Hback.
    assert (Hinner : isTable inner = false).
    { destruct ch as [| c ch']; [discriminate |].
      injection Hmap as <- _. apply isTable_slot. }
    rewrite Hinner, andb_false_r. exact Hback.
Qed.

Lemma list_sum_zero (l : list nat) :
  list_sum l = 0 -> Forall (fun n => n = 0) l.
Proof.
  induction l as [| n l IH]; [constructor |].
  rewrite list_sum_cons. intros H. constructor; [lia | apply IH; lia].
Qed.

Lemma slot_no_table (node : Node) : countTables node = 0 -> slot node = node.
Proof.
  induction node as [t p ch IH | v | t v] using WrapTables_Node_ind;
    [| reflexivity | reflexivity].
  cbn [countTables]. intros Hzero. unfold slot. cbn [isTable].
  destruct (t =? "table")%string; [discriminate |].
  rewrite WrapTables_visit_eq. f_equal. apply map_fixed.
  assert (Hch : list_sum (map countTables ch) = 0) by lia.
  apply list_sum_zero in Hch. rewrite Forall_map in Hch.
  rewrite Forall_forall in *. intros c Hc. now apply IH, Hch.
Qed.

End WrapTablesFacts.

(** X14: the table-wrapping plugin adds one container for each table of
    the tree, at any depth, and neither adds nor loses a table. *)
Theorem rehypeWrapTables_counts (tree : list WrapTables.Node) :
  list_sum (map WrapTables.countTables (WrapTables.rehypeWrapTables tree)) =
    list_sum (map WrapTables.countTables tree)
  /\ list_sum (map WrapTables.countContainers
                 (WrapTables.rehypeWrapTables tree)) =
       list_sum (map WrapTables.countContainers tree)
       + list_sum (map WrapTables.countTables tree).
Proof.
  unfold WrapTables.rehypeWrapTables. rewrite !map_map. split.
  - apply list_sum_map_ext, Forall_forall. intros node _. apply slot_counts.
  - rewrite <- list_sum_map_add.
    apply list_sum_map_ext, Forall_forall. intros node _. apply slot_counts.
Qed.

(** X15: in the result of the table-wrapping plugin every table, at any
    depth, is the one child of a div of class table-container. *)
Theorem rehypeWrapTables_wrapped (tree : list WrapTables.Node) :
  forallb (WrapTables.wrapped false) (WrapTables.rehypeWrapTables tree) = true.
Proof.
  unfold WrapTables.rehypeWrapTables. apply forallb_forall.
  intros x Hx. apply in_map_iff in Hx. destruct Hx as [node [<- _]].
  apply slot_wrapped.
Qed.

(** X16: the table-wrapping plugin loses nothing: putting every table back
    in the place of its container gives the source tree, also when the
    source holds containers of its own. *)
Theorem rehypeWrapTables_unwrap (tree : list WrapTables.Node) :
  map WrapTables.unslot (WrapTables.rehypeWrapTables tree) = tree.
Proof.
  unfold WrapTables.rehypeWrapTables. rewrite map_map.
  apply map_fixed, Forall_forall. intros node _. apply slot_unslot.
Qed.

(** X17: a tree without a table goes through the table-wrapping plugin
    unchanged. *)
Theorem rehypeWrapTables_no_table (tree : list WrapTables.Node) :
  list_sum (map WrapTables.countTables tree) = 0 ->
  WrapTables.rehypeWrapTables tree = tree.
Proof.
  intros Hzero. unfold WrapTables.rehypeWrapTables.
  apply map_fixed. apply list_sum_zero in Hzero.
  rewrite Forall_map in Hzero. revert Hzero. apply Forall_impl.
  intros node. apply slot_no_table.
Qed.

(** A paragraph and a container left over from an earlier run, without a
    table in it. *)
Lemma rehypeWrapTables_no_table_witness :
  let tree :=
    [ WrapTables.Element "p" [] [WrapTables.Text (str "no table here")];
      WrapTables.Element "div" [("className", ["table-container"])]
        [WrapTables.Element "span" [] []] ] in
  WrapTables.rehypeWrapTables tree = tree.
Proof.
  intros tree. exact (rehypeWrapTables_no_table tree eq_refl).
Defined.

(** * Meta content read again as a line *)

Section Reread.

Lemma isSpace_newline (c : Char) :
  negb (isSpace c) = true -> (c =? newline)%N = false.
Proof.
  intros Hc. destruct (N.eqb_spec c newline) as [-> | _]; [| reflexivity].
  discriminate.
Qed.

Lemma splitNewline_none (s : JsString) :
  forall cur : JsString,
    forallb (fun c => negb (isSpace c)) s = true ->
    splitNewline cur s = [rev cur ++ s].
Proof.
  induction s as [| c s IH]; intros cur Hs; cbn [splitNewline forallb] in *.
  - now rewrite app_nil_r.
  - apply andb_prop in Hs. destruct Hs as [Hc Hs].
    rewrite (isSpace_newline c Hc), IH by assumption.
    cbn [rev]. now rewrite <- app_assoc.
Qed.

Lemma splitSpaces_none (s : JsString) :
  forall cur : JsString,
    forallb (fun c => negb (isSpace c)) s = true ->
    splitSpaces InPiece cur s = [rev cur ++ s].
Proof.
  induction s as [| c s IH]; intros cur Hs; cbn [splitSpaces forallb] in *.
  - now rewrite app_nil_r.
  - apply andb_prop in Hs. destruct Hs as [Hc Hs].
    apply negb_true_iff in Hc. rewrite Hc, IH by assumption.
    cbn [rev]. now rewrite <- app_assoc.
Qed.

(** A text without whitespace is one token, pushed as it is. *)
Lemma processTextNode_clean (value : JsString) (lines : Lines) :
  value <> [] -> forallb (fun c => negb (isSpace c)) value = true ->
  processTextNode value lines = pushNode (Text value) lines.
Proof.
  intros Hne Hclean. unfold processTextNode, split_nl. cbv zeta.
  rewrite splitNewline_none by assumption.
  cbn [rev app processTextLines Nat.ltb Nat.leb].
  unfold processTextLine, split_ws. cbv zeta.
  rewrite splitSpaces_none by assumption. cbn [rev app forEach].
  unfold processToken.
  destruct value as [| c value]; [contradiction |].
  cbn [forallb] in Hclean. apply andb_prop in Hclean.
  destruct Hclean as [Hc _]. apply negb_true_iff in Hc.
  cbn [allSpace forallb]. rewrite Hc. cbn [andb].
  now destruct (pushNode (Text (c :: value)) lines).
Qed.

Lemma processChild_clean (span : PhrasingContent) (ls : Lines)
  (l : LineWords) (w : Word) :
  cleanSpan span ->
  processChild span (ls ++ [l ++ [w]]) = Ok (ls ++ [l ++ [w ++ [span]]]).
Proof.
  intros Hclean.
  assert (Hpush : pushNode span (ls ++ [l ++ [w]]) =
                  Ok (ls ++ [l ++ [w ++ [span]]]))
    by (unfold pushNode; now rewrite !atLast_snoc).
  destruct span as [value | | t cs]; cbn [processChild cleanSpan] in *.
  - destruct Hclean as [Hne Hc]. now rewrite processTextNode_clean.
  - contradiction.
  - exact Hpush.
Qed.

(** The spans of a word, pushed one after the other, join the open word. *)
Lemma forEach_clean_word (spans : Word) :
  forall (ls : Lines) (l : LineWords) (w : Word),
    Forall cleanSpan spans ->
    forEach processChild spans (ls ++ [l ++ [w]]) =
      Ok (ls ++ [l ++ [w ++ spans]]).
Proof.
  induction spans as [| span spans IH]; intros ls l w Hclean.
  - cbn. now rewrite app_nil_r.
  - inversion Hclean as [| ? ? Hspan Hrest]. subst.
    cbn [forEach]. rewrite processChild_clean by assumption. cbn [bind].
    rewrite IH by assumption. now rewrite <- app_assoc.
Qed.

(** The space span of the meta branch opens a new word. *)
Lemma processChild_space (ls : Lines) (l : LineWords) :
  processChild (Text (str " ")) (ls ++ [l]) = Ok (ls ++ [l ++ [[]]]).
Proof.
  cbn [processChild]. unfold processTextNode, processTextLine.
  cbn. unfold pushWord. now rewrite atLast_snoc.
Qed.

Lemma forEach_spaced_words (rest : list Word) :
  forall (ls : Lines) (l : LineWords),
    Forall (Forall cleanSpan) rest ->
    forEach processChild (flat_map (fun w => Text (str " ") :: w) rest)
      (ls ++ [l]) =
      Ok (ls ++ [l ++ rest]).
Proof.
  induction rest as [| w rest IH]; intros ls l Hclean.
  - cbn. now rewrite app_nil_r.
  - inversion Hclean as [| ? ? Hw Hrest]. subst.
    cbn [flat_map]. rewrite forEach_app.
    change (Text (str " ") :: w) with ([Text (str " ")] ++ w).
    rewrite forEach_app.
    change (forEach processChild [Text (str " ")] (ls ++ [l]))
      with (s' <- processChild (Text (str " ")) (ls ++ [l]) ;; Ok s').
    rewrite processChild_space. cbn [bind].
    rewrite forEach_clean_word by assumption. cbn [bind app].
    transitivity (@Ok JsError Lines (ls ++ [(l ++ [w]) ++ rest]));
      [exact (IH ls (l ++ [w]) Hrest) | now rewrite <- app_assoc].
Qed.

Lemma filter_nonEmpty_all {A} (l : list (list A)) :
  Forall (fun x => x <> []) l -> filter nonEmpty l = l.
Proof.
  induction 1 as [| x l Hx _ IH]; [reflexivity |].
  cbn [filter]. destruct x; [contradiction |]. cbn [nonEmpty]. now rewrite IH.
Qed.

End Reread.

(** X18: the content the classifier builds for a meta line reads back as
    the words it was built from: for words that are not empty and hold the
    spans the extractor makes, [extractLines] on the content with its space
    spans returns one line with exactly these words. *)
Theorem extractLines_joinWords (w : Word) (rest : list Word) :
  Forall (fun w : Word => w <> [] /\ Forall cleanSpan w) (w :: rest) ->
  extractLines (joinWords 0 (w :: rest) []) = Ok [w :: rest].
Proof.
  intros Hwords.
  assert (Hne : Forall (fun w : Word => w <> []) (w :: rest))
    by (revert Hwords; apply Forall_impl; now intros x [Hx _]).
  assert (Hclean : Forall (Forall cleanSpan) (w :: rest))
    by (revert Hwords; apply Forall_impl; now intros x [_ Hx]).
  inversion Hclean as [| ? ? Hw Hrest]. subst.
  rewrite joinWords_spaced, spaced_cons. unfold extractLines.
  assert (Hfirst : forEach processChild w [[[]]] = Ok [[w]])
    by exact (forEach_clean_word w [] [] [] Hw).
  assert (Hothers : forEach processChild
                      (flat_map (fun w => Text (str " ") :: w) rest) [[w]] =
                    Ok [w :: rest])
    by exact (forEach_spaced_words rest [] [w] Hrest).
  rewrite forEach_app, Hfirst. cbn [bind]. rewrite Hothers. cbn [bind map].
  rewrite (filter_nonEmpty_all (w :: rest) Hne).
  now destruct w.
Qed.

(** The words "A" and "caption" of a header. *)
Lemma extractLines_joinWords_witness :
  extractLines [Text (str "A"); Text (str " "); Text (str "caption")] =
    Ok [[[Text (str "A")]; [Text (str "caption")]]].
Proof.
  apply (extractLines_joinWords [Text (str "A")] [[Text (str "caption")]]).
  repeat constructor; discriminate.
Defined.
